(** * Rocket stabilization loop (src/main.cpp): model and verified properties

    The Arduino sketch is embedded function by function.  Its [float] is
    IEEE-754 binary32, modelled bit-exactly with the Standard Library's
    [SpecFloat] operations at precision 24 and exponent bound 128.  Global
    state ([namespace Rocket], [last_tick]) is threaded explicitly; the
    sensor, the clock and the serial port are inputs and outputs of a tick.
    Library code outside the repository is either a parameter ([atan2f],
    the [%f] conversion of [snprintf]) or, where ISO C fixes its result
    exactly ([fmodf], [fabsf], [sqrt]), a definition.  [PI] is the macro as
    the sketch defines it, a [float] literal, so that all arithmetic is in
    binary32; [unsigned long] has 32 bits, as on every Arduino target. *)

From stdpp Require Import list.
From Stdlib Require Import ZArith Lia Bool Ascii.
From Stdlib Require String.
From Stdlib Require Import Floats.SpecFloat.
Local Open Scope Z_scope.

(* ================================================================= *)
(** ** Binary32 arithmetic *)

Definition prec : Z := 24.
Definition emax : Z := 128.
Definition float : Type := spec_float.

Definition fadd : float -> float -> float := SFadd prec emax.
Definition fmul : float -> float -> float := SFmul prec emax.
Definition fdiv : float -> float -> float := SFdiv prec emax.
Definition fneg : float -> float := SFopp.
Definition fabsf : float -> float := SFabs.
Definition flt : float -> float -> bool := SFltb.
Definition fle : float -> float -> bool := SFleb.
Definition feq : float -> float -> bool := SFeqb.

(** [sqrt] is called on a [float] argument and its result is passed to
    [atan2f]; rounding the double-precision root to binary32 gives the
    correctly rounded binary32 root, which is what [SFsqrt] computes. *)
Definition fsqrt : float -> float := SFsqrt prec emax.

(** Conversion of an integer to [float] (round to nearest even). *)
Definition float_of_Z (n : Z) : float := binary_normalize prec emax n 0 false.

(** The value of a decimal literal [digits * 10^-scale], correctly rounded. *)
Definition float_of_decimal (digits scale : Z) : float :=
  match digits with
  | Zpos _ =>
      let '(q, e, l) := SFdiv_core_binary prec emax digits 0 (10 ^ scale) 0 in
      binary_round_aux prec emax false q e l
  | _ => S754_zero false
  end.

(** [fmodf] of ISO C (7.12.10.1, F.10.7.1): the result is exact, has the sign
    of [x] and a magnitude below that of [y]. *)
Definition fmodf (x y : float) : float :=
  match x, y with
  | S754_nan, _ | _, S754_nan => S754_nan
  | S754_infinity _, _ => S754_nan
  | _, S754_zero _ => S754_nan
  | S754_zero _, _ => x
  | S754_finite _ _ _, S754_infinity _ => x
  | S754_finite sx mx ex, S754_finite _ my ey =>
      let e := Z.min ex ey in
      let X := Zpos mx * 2 ^ (ex - e) in
      let Y := Zpos my * 2 ^ (ey - e) in
      binary_normalize prec emax (cond_Zopp sx (X mod Y)) e sx
  end.

Definition is_finite (x : float) : bool :=
  match x with
  | S754_zero _ | S754_finite _ _ _ => true
  | _ => false
  end.

(** A well-formed finite binary32 datum. *)
Definition finite_float (x : float) : Prop :=
  is_finite x = true /\ valid_binary prec emax x = true.

(** The exact value of a finite float, counted in units of [2^-149] (the
    least positive binary32 number); an integer for every valid float. *)
Definition ulps (x : float) : Z :=
  match x with
  | S754_finite s m e => cond_Zopp s (Zpos m * 2 ^ (e + 149))
  | _ => 0
  end.

(* ================================================================= *)
(** ** Constants and macros *)

(** [#define SIM_MODE_ON]: the sketch is built for the simulation. *)
Definition SIM_MODE_ON : bool := true.

(** [#define PI 3.1415926535897932384626433832795f] *)
Definition PI : float := float_of_decimal 31415926535897932384626433832795 31.

Definition f0 : float := S754_zero false.          (* 0.0f *)
Definition f24 : float := float_of_Z 24.           (* 24.0f *)
Definition f180 : float := float_of_Z 180.         (* 180.0f *)
Definition f360 : float := float_of_Z 360.         (* 360.0f *)
Definition f1000 : float := float_of_Z 1000.       (* 1000.0f *)

(** The three constants, from the sketch's own [float] macro for [PI]. *)
Definition DEG2RAD : float := fdiv PI f180.
Definition RAD2DEG : float := fdiv f180 PI.
Definition PI2 : float := fmul (float_of_Z 2) PI.

Inductive CANARD := CANARD_PIN_1 | CANARD_PIN_2 | CANARD_PIN_3 | CANARD_PIN_4.

Definition CANARD_pin (c : CANARD) : Z := 15.

(* ================================================================= *)
(** ** Utility functions *)

(** [fixDegree(float& degrees)]; the new value of the reference is returned. *)
Definition fixDegree (degrees : float) : float :=
  let degrees := if flt degrees f0 then fadd degrees f180 else degrees in
  let degrees := fabsf degrees in
  fmodf degrees f360.

(** [fixRadian(float& radians)]; likewise. *)
Definition fixRadian (radians : float) : float :=
  let radians := if flt radians f0 then fadd radians PI else radians in
  let radians := fabsf radians in
  fmodf radians PI2.

(** The normalizer as the specification words it: add half a turn when
    negative, take the absolute value, reduce modulo the full turn. *)
Definition normalize_spec (half full x : float) : float :=
  fmodf (fabsf (if flt x f0 then fadd x half else x)) full.

(** [0 <= r < full] as the program's own comparisons evaluate it. *)
Definition in_turn (full r : float) : bool := fle f0 r && flt r full.

(** A stored angle is acceptable: a valid datum within [[0, PI2)]. *)
Definition angle_ok (r : float) : Prop :=
  valid_binary prec emax r = true /\ in_turn PI2 r = true.

(** Congruence of two finite floats modulo a third, on exact values. *)
Definition congruent (modulus a b : float) : Prop :=
  exists k : Z, ulps a - ulps b = k * ulps modulus.

(** The reading of "r is congruent to x modulo the full turn, up to the
    documented half-turn shift for negative inputs". *)
Definition congruent_up_to_shift (half full x r : float) : Prop :=
  if flt x f0
  then exists k : Z, ulps r = ulps x + ulps half + k * ulps full
  else exists k : Z, ulps r = ulps x + k * ulps full.

(* ----------------------------------------------------------------- *)
(** *** The float-array serializer *)

Definition NUL : ascii := Ascii.zero.

Section Serializer.

(** The text [snprintf] produces for conversion [%f]; library code. *)
Variable fmt : float -> list ascii.

(** [snprintf(str, n, "%f", v)] with [str] at offset [off] of the buffer:
    where it stores and which bytes.  At most [n - 1] characters of the
    text are kept and a terminator follows; nothing is stored when
    [n = 0]. *)
Definition snprintf_f (off n : nat) (v : float) : nat * list ascii :=
  (off, match n with
        | O => []
        | S n' => take n' (fmt v) ++ [NUL]
        end).

(** [PackFloatsInStr(str, str_size, floats, float_c, float_chars)]: the
    stores performed, one block per call of [snprintf], in order.  [off]
    is the position of [str] inside the destination array; the recursion
    is the [for] loop, one float per round, left as soon as
    [str_size < float_chars]. *)
Fixpoint PackFloatsInStr (off str_size : nat) (floats : list float)
    (float_chars : nat) : list (nat * list ascii) :=
  match floats with
  | [] => []
  | v :: rest =>
      if (float_chars <=? str_size)%nat then
        snprintf_f off str_size v
          :: PackFloatsInStr (off + float_chars) (str_size - float_chars)
               rest float_chars
      else []
  end.

(** How many floats the loop packs. *)
Fixpoint packed_count (str_size : nat) (floats : list float)
    (float_chars : nat) : nat :=
  match floats with
  | [] => O
  | _ :: rest =>
      if (float_chars <=? str_size)%nat
      then S (packed_count (str_size - float_chars) rest float_chars)
      else O
  end.

End Serializer.

(** Memory after a sequence of block stores. *)
Definition store_blocks (stores : list (nat * list ascii)) (buf : list ascii)
    : list ascii :=
  foldl (fun b st => list_inserts (fst st) (snd st) b) buf stores.

(** The addresses a sequence of block stores touches. *)
Definition stored_offsets (stores : list (nat * list ascii)) : list nat :=
  concat (map (fun st => seq (fst st) (length (snd st))) stores).

(** The characters of a C string: everything before the first terminator. *)
Fixpoint c_str (buf : list ascii) : list ascii :=
  match buf with
  | [] => []
  | c :: rest => if Ascii.eqb c NUL then [] else c :: c_str rest
  end.

Definition CRLF : list ascii := ["013"%char; "010"%char].

(** [Serial.println] of a C string: the bytes sent down the serial line. *)
Definition Serial_println (s : list ascii) : list ascii := c_str s ++ CRLF.

(* ================================================================= *)
(** ** Rocket state *)

Record Rocket := mkRocket {
  pitch : float;
  roll : float;
  yaw : float;
  canard_rotations : list float
}.

Definition Rocket_init : Rocket := mkRocket f0 f0 f0 (replicate 4 f0).

Definition canard (rk : Rocket) (i : nat) : float :=
  default f0 (canard_rotations rk !! i).

Definition set_canard (i : nat) (v : float) (rk : Rocket) : Rocket :=
  mkRocket (pitch rk) (roll rk) (yaw rk) (<[i := v]> (canard_rotations rk)).

Definition SetOrientation (pitch' roll' yaw' : float) (rk : Rocket) : Rocket :=
  mkRocket pitch' roll' yaw' (canard_rotations rk).

Definition GetOrientation (rk : Rocket) : float * float * float :=
  (pitch rk, roll rk, yaw rk).

(** [SetCanardRotations(float rad[4])]: normalizes the caller's array in
    place and copies it; both the array and the state are returned. *)
Definition SetCanardRotations (rad : list float) (rk : Rocket)
    : list float * Rocket :=
  foldl (fun '(rad, rk) i =>
           let r := fixRadian (default f0 (rad !! i)) in
           (<[i := r]> rad, set_canard i r rk))
        (rad, rk) (seq 0 4).

(** What the ICM-20948 reports during one tick. *)
Record AGMT := mkAGMT {
  accX : float; accY : float; accZ : float;
  magX : float; magY : float; magZ : float
}.

Record Sensor := mkSensor { dataReady : bool; getAGMT : AGMT }.

(** One round of the stabilization loop on one canard angle. *)
Definition canard_step (deltaTime c : float) : float :=
  fixRadian (fadd c (fmul (fmul f24 DEG2RAD) deltaTime)).

Section Program.

(** [atan2f] of the C library. *)
Variable atan2f : float -> float -> float.

(** The text of conversion [%f]. *)
Variable fmt : float -> list ascii.

Definition SetOrientationFromSensors (deltaTime : float) (ICM_Obj : Sensor)
    (rk : Rocket) : Rocket :=
  if dataReady ICM_Obj then
    let s := getAGMT ICM_Obj in
    let roll_a := atan2f (accY s) (accZ s) in
    let pitch_a :=
      atan2f (fneg (accX s))
             (fsqrt (fadd (fmul (accY s) (accY s)) (fmul (accZ s) (accZ s)))) in
    let yaw_m := atan2f (magY s) (magX s) in
    let pitch := roll_a in
    let roll := roll_a in
    let yaw := yaw_m in
    let pitch := fixRadian pitch in
    let roll := fixRadian roll in
    let yaw := fixRadian yaw in
    SetOrientation pitch roll yaw rk
  else rk.

(** The pitch the quoted equations give; computed by the source as
    [pitch_a]. *)
Definition pitch_formula (s : AGMT) : float :=
  atan2f (fneg (accX s))
         (fsqrt (fadd (fmul (accY s) (accY s)) (fmul (accZ s) (accZ s)))).

Definition roll_formula (s : AGMT) : float := atan2f (accY s) (accZ s).
Definition yaw_formula (s : AGMT) : float := atan2f (magY s) (magX s).

(** [ActuateCanard]: converts to degrees; the actuation itself is a TODO
    of the source, so nothing is emitted. *)
Definition ActuateCanard (canardPin : CANARD) (radians : float) : float :=
  fmul radians RAD2DEG.

Definition StabilizationSystem (deltaTime : float) (rk : Rocket) : Rocket :=
  foldl (fun rk i => set_canard i (canard_step deltaTime (canard rk i)) rk)
        rk (seq 0 4).

Definition FLOAT_CHARS : nat := 8.

Definition float_data_arr (rk : Rocket) : list float :=
  [pitch rk; roll rk; yaw rk;
   canard rk 0; canard rk 1; canard rk 2; canard rk 3].

Definition FLOAT_ARR_ELEMS : nat := 7.

Definition DATA_STR_SIZE : nat := (FLOAT_CHARS * FLOAT_ARR_ELEMS + 1)%nat.

(** [SendDataToSerial]: the bytes written to the serial port. *)
Definition SendDataToSerial (rk : Rocket) : list ascii :=
  let rocketDataStr := replicate DATA_STR_SIZE NUL in
  let rocketDataStr :=
    store_blocks
      (PackFloatsInStr fmt 0 DATA_STR_SIZE (float_data_arr rk) FLOAT_CHARS)
      rocketDataStr in
  Serial_println rocketDataStr.

(** Program state between two ticks. *)
Record System := mkSystem { rocket : Rocket; last_tick : Z }.

(** Inputs of one tick: the clock and the sensor. *)
Record Tick := mkTick { millis : Z; ICM : Sensor }.

(** [unsigned long] subtraction. *)
Definition ulong_sub (a b : Z) : Z := (a - b) mod 2 ^ 32.

Definition delta_time (current_tick last : Z) : float :=
  fdiv (float_of_Z (ulong_sub current_tick last)) f1000.

(** [loop()]: the new state and the lines sent over serial. *)
Definition loop (t : Tick) (s : System) : System * list (list ascii) :=
  let current_tick := millis t in
  let deltaTime := delta_time current_tick (last_tick s) in
  let rk := SetOrientationFromSensors deltaTime (ICM t) (rocket s) in
  let rk := StabilizationSystem deltaTime rk in
  let out :=
    if SIM_MODE_ON then [SendDataToSerial rk]
    else
      let _ := ActuateCanard CANARD_PIN_1 (canard rk 0) in
      let _ := ActuateCanard CANARD_PIN_2 (canard rk 1) in
      let _ := ActuateCanard CANARD_PIN_3 (canard rk 2) in
      let _ := ActuateCanard CANARD_PIN_4 (canard rk 3) in
      [] in
  (mkSystem rk current_tick, out).

(** [setup()], which returns once the sensor has answered (it retries for
    ever otherwise): the state is the initial one and the clock is
    sampled. *)
Definition setup (now : Z) : System := mkSystem Rocket_init now.

(** The state after a sequence of ticks, and everything sent meanwhile. *)
Definition run_from (s : System) (ticks : list Tick)
    : System * list (list ascii) :=
  foldl (fun '(s, out) t => let '(s', o) := loop t s in (s', out ++ o))
        (s, []) ticks.

Definition run (now : Z) (ticks : list Tick) : System * list (list ascii) :=
  run_from (setup now) ticks.

End Program.

(* ================================================================= *)
(** ** Reference instances of the library parameters *)

(** *** Conversion [%f]

    ISO C 7.21.6.1: decimal notation with six digits after the point, the
    value correctly rounded; [float] arguments are promoted, which does not
    change their value. *)

Definition digit_char (d : Z) : ascii := ascii_of_nat (48 + Z.to_nat (d mod 10)).

Fixpoint decimal_digits (fuel : nat) (n : Z) (acc : list ascii) : list ascii :=
  match fuel with
  | O => acc
  | S fuel' =>
      if n <? 10 then digit_char n :: acc
      else decimal_digits fuel' (n / 10) (digit_char n :: acc)
  end.

Definition show_Z (n : Z) : list ascii :=
  decimal_digits (S (Z.to_nat (Z.log2 n))) n [].

Definition round_half_even (num den : Z) : Z :=
  let q := num / den in
  match (2 * (num mod den)) ?= den with
  | Lt => q
  | Gt => q + 1
  | Eq => if Z.even q then q else q + 1
  end.

(** The magnitude of a finite float in millionths, rounded to an integer. *)
Definition millionths (x : float) : Z :=
  match x with
  | S754_finite _ m e =>
      if 0 <=? e then Zpos m * 2 ^ e * 10 ^ 6
      else round_half_even (Zpos m * 10 ^ 6) (2 ^ (- e))
  | _ => 0
  end.

Definition sign_text (s : bool) : list ascii := if s then ["-"%char] else [].

Definition format_f (x : float) : list ascii :=
  match x with
  | S754_nan => ["n"; "a"; "n"]%char
  | S754_infinity s => sign_text s ++ ["i"; "n"; "f"]%char
  | S754_zero s | S754_finite s _ _ =>
      let n := millionths x in
      sign_text s ++ show_Z (n / 10 ^ 6) ++ ["."%char]
        ++ map (fun k => digit_char (n mod 10 ^ 6 / 10 ^ k)) [5; 4; 3; 2; 1; 0]
  end.

(** *** [atan2f] on the arguments where ISO C (F.10.1.4) fixes the result

    [generic] stands for the library's approximation on two finite nonzero
    arguments. *)

Definition with_sign (s : bool) (x : float) : float := if s then fneg x else x.

Definition PI_2 : float := float_of_decimal 15707963267948966 16.
Definition PI_4 : float := float_of_decimal 7853981633974483 16.
Definition PI_3_4 : float := float_of_decimal 2356194490192345 15.

Definition atan2f_model (generic : float -> float -> float) (y x : float) : float :=
  match y, x with
  | S754_nan, _ | _, S754_nan => S754_nan
  | S754_zero sy, (S754_zero false | S754_finite false _ _ | S754_infinity false) =>
      S754_zero sy
  | S754_zero sy, _ => with_sign sy PI
  | S754_finite sy _ _, S754_zero _ => with_sign sy PI_2
  | S754_finite sy _ _, S754_infinity false => S754_zero sy
  | S754_finite sy _ _, S754_infinity true => with_sign sy PI
  | S754_infinity sy, S754_infinity false => with_sign sy PI_4
  | S754_infinity sy, S754_infinity true => with_sign sy PI_3_4
  | S754_infinity sy, _ => with_sign sy PI_2
  | S754_finite _ _ _, S754_finite _ _ _ => generic y x
  end.

(** An instance that is exact on the axes and returns [0.0f] elsewhere. *)
Definition atan2f_axes : float -> float -> float := atan2f_model (fun _ _ => f0).

(* ================================================================= *)
(** ** Auxiliary notions for the proofs *)

(** What [binary_round_aux] returns, given the mantissa [m2] it settles on
    at exponent [f]: zero, a float, a float one binade up when the
    mantissa was carried to [2^24], or an overflow. *)
Definition round_result (s : bool) (m2 f : Z) : float :=
  match m2 with
  | Zpos p =>
      if m2 <? 2 ^ 24
      then (if f <=? 104 then S754_finite s p f else S754_infinity s)
      else (if f + 1 <=? 104 then S754_finite s 8388608 (f + 1)
            else S754_infinity s)
  | _ => S754_zero s
  end.

(** Magnitude bounds that survive a rounding: [|x| < 2^K] and [|x| <= 2^K]. *)
Definition mag_lt (K : Z) (x : float) : Prop :=
  match x with
  | S754_zero _ => True
  | S754_finite _ m e => Zdigits2 (Zpos m) + e <= K
  | _ => False
  end.

Definition mag_le (K : Z) (x : float) : Prop :=
  match x with
  | S754_zero _ => True
  | S754_finite _ m e => e <= K /\ Zpos m <= 2 ^ (K - e)
  | _ => False
  end.

(** A float that is [+0] or positive, valid, and below [y]. *)
Definition nonneg_below (y r : float) : Prop :=
  match r with
  | S754_zero s => s = false
  | S754_finite s m e =>
      s = false /\ valid_binary prec emax r = true /\ flt r y = true
  | _ => False
  end.

(** The sensor readings of a tick are finite numbers. *)
Definition sample_ok (s : AGMT) : Prop :=
  finite_float (accX s) /\ finite_float (accY s) /\ finite_float (accZ s)
  /\ finite_float (magX s) /\ finite_float (magY s) /\ finite_float (magZ s).

Definition tick_ok (t : Tick) : Prop := sample_ok (getAGMT (ICM t)).

(** [atan2f] maps finite arguments to a finite result. *)
Definition finite_preserving (atan2f : float -> float -> float) : Prop :=
  forall y x, finite_float y -> finite_float x -> finite_float (atan2f y x).

(** The seven stored angles, in telemetry order. *)
Definition angles (rk : Rocket) : list float :=
  [pitch rk; roll rk; yaw rk] ++ canard_rotations rk.

(** The state invariant: four canard angles, and every angle is [+0] or a
    positive valid float below [PI2]. *)
Definition rocket_ok (rk : Rocket) : Prop :=
  length (canard_rotations rk) = 4%nat /\ Forall (nonneg_below PI2) (angles rk).

(* ================================================================= *)
(** ** Concrete inputs used in examples *)

(** The rocket at rest on the pad, nose (x axis) up: one g along x, the
    magnetic field along x. *)
Definition pad_sample : AGMT :=
  mkAGMT (float_of_Z 1000) f0 f0 (float_of_Z 1) f0 f0.

Definition idle_sensor : Sensor := mkSensor false pad_sample.
Definition ready_sensor : Sensor := mkSensor true pad_sample.

(** Five ticks, one second apart, without fresh sensor data. *)
Definition five_idle_ticks : list Tick :=
  map (fun ms => mkTick ms idle_sensor) [1000; 2000; 3000; 4000; 5000]%Z.

(** A reading with the rocket lying on its side: gravity along the sensor's
    Y axis, magnetic field along Y.  With the axis cases of [atan2f] it gives
    a quarter turn for each of pitch, roll and yaw, unlike [pad_sample], the
    reading the idle ticks carry. *)
Definition tilted_sample : AGMT :=
  mkAGMT f0 (float_of_Z 1000) f0 f0 (float_of_Z 1) f0.

Definition tilted_sensor : Sensor := mkSensor true tilted_sample.

(** The state after one tick with fresh data from [tilted_sample] at 500 ms
    and then the first [n] of the five idle ticks. *)
Definition idle_stretch (n : nat) : System :=
  fst (run atan2f_axes format_f 0
         (mkTick 500 tilted_sensor :: take n five_idle_ticks)).

Definition one_two_three : list float := [float_of_Z 1; float_of_Z 2; float_of_Z 3].

Section Literals.
Import String.
Definition text_1_2_3 : list ascii :=
  list_ascii_of_string "1.0000002.0000003.000000".
Definition text_1 : list ascii := list_ascii_of_string "1.000000".
Definition text_zero_line : list ascii :=
  list_ascii_of_string
    "0.0000000.0000000.0000000.0000000.0000000.0000000.000000".
End Literals.

(* ================================================================= *)
(** ** Start-up, and notions for further properties *)

(** [#define DEBUG]: console messages are enabled. *)
Definition DEBUG : bool := true.

Section SetupText.
Import String.
Definition init_failed_msg : list ascii :=
  list_ascii_of_string "Failed to init ICM, trying again...".
End SetupText.

(** The retry loop of [setup()].  [attempts] tells, for each successive call
    of [ICM_Obj.begin], whether the status was [ICM_20948_Stat_Ok].  Each
    failure prints the message (under [DEBUG]) and waits; the first success
    ends the loop.  The result is what was printed and whether [init] has
    become true within these attempts. *)
Fixpoint setup_retry (attempts : list bool) : list (list ascii) * bool :=
  match attempts with
  | [] => ([], false)
  | ok :: rest =>
      if ok then ([], true)
      else
        let '(out, init) := setup_retry rest in
        ((if DEBUG then [Serial_println (init_failed_msg ++ [NUL])] else [])
           ++ out,
         init)
  end.

(** The sample of the latest tick that had fresh data, if any. *)
Definition last_ready (ticks : list Tick) : option AGMT :=
  foldl (fun acc t => if dataReady (ICM t) then Some (getAGMT (ICM t)) else acc)
        None ticks.

(** The sketch defines [PI] only if no header has done so.  [Arduino.h]
    does: [#define PI 3.1415926535897932384626433832795], a [double] literal.
    Where [double] is binary32 as well, nothing changes.  Where it is
    binary64, [180.0f / PI] is evaluated in binary64 and converted to [float]
    when [RAD2DEG] is initialised. *)
Definition PI_double : spec_float :=
  let '(q, e, l) :=
    SFdiv_core_binary 53 1024 31415926535897932384626433832795 0 (10 ^ 31) 0 in
  binary_round_aux 53 1024 false q e l.

(** Conversion of a binary64 datum to [float] (round to nearest even). *)
Definition float_of_double (x : spec_float) : float :=
  match x with
  | S754_finite s m e => binary_normalize prec emax (cond_Zopp s (Zpos m)) e s
  | _ => x
  end.

(** [RAD2DEG] as initialised from the binary64 [PI]. *)
Definition RAD2DEG_wide : float :=
  float_of_double (SFdiv 53 1024 f180 PI_double).

(** [DEG2RAD] and [PI2] as initialised from the binary64 [PI]: [PI / 180.0f]
    and [2 * PI] are evaluated in binary64 and converted to [float]. *)
Definition DEG2RAD_wide : float :=
  float_of_double (SFdiv 53 1024 PI_double f180).

Definition PI2_wide : float :=
  float_of_double
    (SFmul 53 1024 (binary_normalize 53 1024 2 0 false) PI_double).

(** A run that brings the canard angles to the largest float below [PI2]:
    a tick after 1 ms and one 14999 ms later. *)
Definition near_full_turn_ticks : list Tick :=
  [mkTick 1 idle_sensor; mkTick 15000 idle_sensor].
(* ================================================================= *)
(** ** Rounding to binary32: digits, shifts, and the shape of a rounded result *)


Lemma pow2_succ k : 0 <= k -> 2 ^ (k + 1) = 2 * 2 ^ k.
Proof. intros Hk. rewrite Z.pow_add_r by lia. lia. Qed.

Lemma pow2_pos k : 0 <= k -> 0 < 2 ^ k.
Proof. intros Hk. apply Z.pow_pos_nonneg; lia. Qed.

Lemma pow2_le a b : 0 <= a <= b -> 2 ^ a <= 2 ^ b.
Proof. intros H. apply Z.pow_le_mono_r; lia. Qed.

Lemma pow2_split a b : 0 <= a <= b -> 2 ^ b = 2 ^ (b - a) * 2 ^ a.
Proof. intros H. rewrite <- Z.pow_add_r by lia. f_equal. lia. Qed.

Lemma digits2_pos_bounds p :
  2 ^ (Zpos (digits2_pos p) - 1) <= Zpos p < 2 ^ Zpos (digits2_pos p).
Proof.
  induction p as [p IH | p IH | ]; cbn [digits2_pos].
  - rewrite Pos2Z.inj_succ.
    replace (Z.succ (Z.pos (digits2_pos p)) - 1)
      with (Z.pos (digits2_pos p) - 1 + 1) by lia.
    unfold Z.succ. rewrite !pow2_succ by lia. lia.
  - rewrite Pos2Z.inj_succ.
    replace (Z.succ (Z.pos (digits2_pos p)) - 1)
      with (Z.pos (digits2_pos p) - 1 + 1) by lia.
    unfold Z.succ. rewrite !pow2_succ by lia. lia.
  - cbn. lia.
Qed.

Lemma Zdigits2_bounds m :
  0 < m -> 0 < Zdigits2 m /\ 2 ^ (Zdigits2 m - 1) <= m < 2 ^ Zdigits2 m.
Proof.
  destruct m as [|p|p]; try lia. intros _. cbn [Zdigits2].
  split; [lia | apply digits2_pos_bounds].
Qed.

Lemma Zdigits2_le m k : 0 < m -> 0 <= k -> m < 2 ^ k -> Zdigits2 m <= k.
Proof.
  intros Hm Hk Hlt. destruct (Zdigits2_bounds m Hm) as [Hd [Hlo _]].
  destruct (Z_le_gt_dec (Zdigits2 m) k) as [?|Hgt]; [assumption|].
  assert (2 ^ k <= 2 ^ (Zdigits2 m - 1)) by (apply pow2_le; lia). lia.
Qed.

Lemma Zdigits2_ge m k : 0 <= k -> 2 ^ k <= m -> k + 1 <= Zdigits2 m.
Proof.
  intros Hk Hle. assert (Hm : 0 < m) by (pose proof (pow2_pos k Hk); lia).
  destruct (Zdigits2_bounds m Hm) as [Hd [_ Hhi]].
  destruct (Z_le_gt_dec (k + 1) (Zdigits2 m)) as [?|Hgt]; [assumption|].
  assert (2 ^ Zdigits2 m <= 2 ^ k) by (apply pow2_le; lia). lia.
Qed.

Lemma shr_1_m mrs : 0 <= shr_m mrs -> shr_m (shr_1 mrs) = shr_m mrs / 2.
Proof.
  destruct mrs as [m r s]. cbn [shr_m]. intros Hm.
  rewrite <- Z.div2_div.
  destruct m as [|[p|p|]|p]; try lia; reflexivity.
Qed.

Lemma pow2_xO p : 2 ^ Zpos p~0 = 2 ^ Zpos p * 2 ^ Zpos p.
Proof.
  rewrite (Pos2Z.inj_xO p). replace (2 * Z.pos p) with (Z.pos p + Z.pos p) by lia.
  apply Z.pow_add_r; lia.
Qed.

Lemma pow2_xI p : 2 ^ Zpos p~1 = 2 * (2 ^ Zpos p * 2 ^ Zpos p).
Proof.
  rewrite (Pos2Z.inj_xI p). replace (2 * Z.pos p + 1) with (1 + Z.pos p + Z.pos p) by lia.
  rewrite !Z.pow_add_r by lia. change (2 ^ 1) with 2. ring.
Qed.

Lemma iter_shr_1_m p : forall mrs,
  0 <= shr_m mrs -> shr_m (iter_pos shr_1 p mrs) = shr_m mrs / 2 ^ Zpos p.
Proof.
  induction p as [p IH | p IH | ]; intros mrs Hm; cbn [iter_pos];
    try pose proof (pow2_pos (Zpos p) ltac:(lia)) as Hp.
  - assert (H1 : 0 <= shr_m (shr_1 mrs))
      by (rewrite shr_1_m by assumption; apply Z.div_pos; lia).
    assert (H2 : 0 <= shr_m (iter_pos shr_1 p (shr_1 mrs))).
    { rewrite IH by assumption. apply Z.div_pos; [assumption | lia]. }
    rewrite IH by assumption. rewrite IH by assumption.
    rewrite shr_1_m by assumption.
    rewrite pow2_xI, !Z.div_div by lia. reflexivity.
  - assert (H2 : 0 <= shr_m (iter_pos shr_1 p mrs)).
    { rewrite IH by assumption. apply Z.div_pos; [assumption | lia]. }
    rewrite IH by assumption. rewrite IH by assumption.
    rewrite pow2_xO, !Z.div_div by lia. reflexivity.
  - rewrite shr_1_m by assumption. reflexivity.
Qed.

Lemma shr_spec mrs e n :
  0 <= shr_m mrs ->
  shr_m (fst (shr mrs e n)) = shr_m mrs / 2 ^ Z.max 0 n
  /\ snd (shr mrs e n) = e + Z.max 0 n
  /\ (n <= 0 -> fst (shr mrs e n) = mrs).
Proof.
  intros Hm. destruct n as [|p|p]; cbn [shr fst snd].
  - rewrite Z.max_l by lia. cbn. rewrite Z.div_1_r. repeat split; lia.
  - rewrite Z.max_r by lia. rewrite iter_shr_1_m by assumption.
    repeat split; lia.
  - rewrite Z.max_l by lia. cbn. rewrite Z.div_1_r. repeat split; lia.
Qed.

Lemma shr_m_of_loc m l : shr_m (shr_record_of_loc m l) = m.
Proof. destruct l as [|[]]; reflexivity. Qed.

Lemma round_nearest_even_bounds m l :
  m <= round_nearest_even m l <= m + 1.
Proof.
  destruct l as [|[]]; cbn [round_nearest_even]; try lia.
  destruct (Z.even m); lia.
Qed.

Lemma fexp_eq k : fexp prec emax k = Z.max (k - 24) (-149).
Proof. reflexivity. Qed.

Lemma trunc_bounds m e :
  0 < m -> e <= fexp prec emax (Zdigits2 m + e) ->
  0 <= m / 2 ^ (fexp prec emax (Zdigits2 m + e) - e) < 2 ^ 24
  /\ (-149 < fexp prec emax (Zdigits2 m + e) ->
      2 ^ 23 <= m / 2 ^ (fexp prec emax (Zdigits2 m + e) - e)).
Proof.
  intros Hm He. rewrite fexp_eq in *.
  destruct (Zdigits2_bounds m Hm) as (Hd & Hlo & Hhi).
  set (d := Zdigits2 m) in *.
  set (n := Z.max (d + e - 24) (-149) - e) in *.
  assert (Hn : 0 <= n) by lia.
  pose proof (pow2_pos n Hn) as Hpn.
  repeat split.
  - apply Z.div_pos; lia.
  - apply Z.div_lt_upper_bound; [lia|].
    rewrite <- Z.pow_add_r by lia.
    assert (2 ^ d <= 2 ^ (n + 24)) by (apply pow2_le; lia). lia.
  - intros Hf. apply Z.div_le_lower_bound; [lia|].
    rewrite <- Z.pow_add_r by lia.
    replace (n + 23) with (d - 1) by lia. exact Hlo.
Qed.

Lemma binary_round_aux_spec s m e l :
  0 < m -> e <= fexp prec emax (Zdigits2 m + e) ->
  exists m2,
    m / 2 ^ (fexp prec emax (Zdigits2 m + e) - e) <= m2
      <= m / 2 ^ (fexp prec emax (Zdigits2 m + e) - e) + 1
    /\ (l = loc_Exact -> fexp prec emax (Zdigits2 m + e) = e -> m2 = m)
    /\ binary_round_aux prec emax s m e l
       = round_result s m2 (fexp prec emax (Zdigits2 m + e)).
Proof.
  intros Hm He.
  destruct (trunc_bounds m e Hm He) as [Hb Hlo].
  unfold binary_round_aux, shr_fexp.
  set (f := fexp prec emax (Zdigits2 m + e)) in *.
  assert (Hf : -149 <= f) by (unfold f; rewrite fexp_eq; lia).
  destruct (shr_spec (shr_record_of_loc m l) e (f - e)) as (H1 & H2 & H3).
  { rewrite shr_m_of_loc. lia. }
  rewrite shr_m_of_loc in H1. rewrite Z.max_r in H1, H2 by lia.
  destruct (shr (shr_record_of_loc m l) e (f - e)) as [mrs' e'].
  cbn [fst snd] in H1, H2, H3.
  assert (He' : e' = f) by lia. clear H2. subst e'.
  pose proof (round_nearest_even_bounds (shr_m mrs') (loc_of_shr_record mrs')) as Hr.
  set (m2 := round_nearest_even (shr_m mrs') (loc_of_shr_record mrs')) in *.
  rewrite H1 in Hr.
  exists m2. split; [exact Hr|]. split.
  { intros -> Hfe. unfold m2. rewrite H3 by lia. reflexivity. }
  clearbody m2. clear H1 H3.
  destruct (shr_spec (shr_record_of_loc m2 loc_Exact) f
              (fexp prec emax (Zdigits2 m2 + f) - f)) as (K1 & K2 & _).
  { rewrite shr_m_of_loc. lia. }
  rewrite shr_m_of_loc in K1.
  destruct (shr (shr_record_of_loc m2 loc_Exact) f
              (fexp prec emax (Zdigits2 m2 + f) - f)) as [mrs'' e''].
  cbn [fst snd] in K1, K2. rewrite fexp_eq in K1, K2.
  change (emax - prec) with 104.
  destruct (Z.eq_dec m2 0) as [E0|N0]; [|destruct (Z_lt_dec m2 (2 ^ 24)) as [Hlt|Hge]].
  - subst m2. rewrite K1. rewrite Z.div_0_l; [reflexivity|].
    pose proof (pow2_pos (Z.max 0 (Z.max (Zdigits2 0 + f - 24) (-149) - f))
                  ltac:(lia)). lia.
  - assert (Hd2 : Zdigits2 m2 <= 24) by (apply Zdigits2_le; lia).
    rewrite Z.max_l in K1, K2 by lia. rewrite Z.div_1_r in K1.
    rewrite K1. replace e'' with f by lia.
    unfold round_result. destruct m2 as [|p|p]; try lia.
    destruct (Z.ltb_spec (Z.pos p) (2 ^ 24)); [reflexivity | lia].
  - assert (m2 = 2 ^ 24) by lia. subst m2.
    change (Zdigits2 (2 ^ 24)) with 25 in K1, K2.
    replace (Z.max 0 (Z.max (25 + f - 24) (-149) - f)) with 1 in K1, K2 by lia.
    rewrite K1. replace e'' with (f + 1) by lia. reflexivity.
Qed.

(** *** Consequences for the result of a rounding *)

Lemma round_result_valid s m2 f :
  0 <= m2 <= 2 ^ 24 -> -149 <= f -> (-149 < f -> 2 ^ 23 <= m2) ->
  valid_binary prec emax (round_result s m2 f) = true.
Proof.
  intros Hm Hf Hlo. unfold round_result.
  destruct m2 as [|p|p]; [reflexivity| |reflexivity].
  destruct (Z.ltb_spec (Z.pos p) (2 ^ 24)) as [Hlt|Hge].
  - destruct (Z.leb_spec f 104); [|reflexivity].
    cbn [valid_binary]. unfold bounded, canonical_mantissa.
    apply andb_true_intro. split; [|apply Z.leb_le; assumption].
    apply Z.eqb_eq. rewrite fexp_eq.
    change (Z.pos (digits2_pos p)) with (Zdigits2 (Z.pos p)).
    assert (Zdigits2 (Z.pos p) <= 24) by (apply Zdigits2_le; lia).
    destruct (Z.eq_dec f (-149)) as [->|Hne]; [lia|].
    assert (24 <= Zdigits2 (Z.pos p)) by (apply (Zdigits2_ge _ 23); lia).
    lia.
  - destruct (Z.leb_spec (f + 1) 104); [|reflexivity].
    cbn [valid_binary]. unfold bounded, canonical_mantissa.
    apply andb_true_intro. split; [|apply Z.leb_le; assumption].
    apply Z.eqb_eq. rewrite fexp_eq.
    change (Z.pos (digits2_pos 8388608)) with 24. lia.
Qed.

Lemma binary_round_aux_valid s m e l :
  0 < m -> e <= fexp prec emax (Zdigits2 m + e) ->
  valid_binary prec emax (binary_round_aux prec emax s m e l) = true.
Proof.
  intros Hm He.
  destruct (binary_round_aux_spec s m e l Hm He) as (m2 & Hr & _ & ->).
  destruct (trunc_bounds m e Hm He) as [Hb Hlo].
  apply round_result_valid; [lia | rewrite fexp_eq; lia | intros H; specialize (Hlo H); lia].
Qed.

(** Below the largest finite magnitude, rounding does not overflow. *)
Lemma binary_round_aux_finite s m e l :
  0 < m -> e <= fexp prec emax (Zdigits2 m + e) ->
  e <= 104 -> m < (2 ^ 24 - 1) * 2 ^ (104 - e) ->
  is_finite (binary_round_aux prec emax s m e l) = true.
Proof.
  intros Hm He He104 Hmax.
  destruct (binary_round_aux_spec s m e l Hm He) as (m2 & Hr & _ & ->).
  destruct (trunc_bounds m e Hm He) as [Hb _].
  destruct (Zdigits2_bounds m Hm) as (Hd & Hlo & Hhi).
  set (f := fexp prec emax (Zdigits2 m + e)) in *.
  assert (Hf : f <= 104).
  { unfold f. rewrite fexp_eq.
    assert (Zdigits2 m <= 128 - e); [|lia].
    apply Zdigits2_le; [lia | lia |].
    rewrite (pow2_split 24 (128 - e)) by lia.
    replace (128 - e - 24) with (104 - e) by lia.
    pose proof (pow2_pos (104 - e) ltac:(lia)). lia. }
  unfold round_result. destruct m2 as [|p|p]; try reflexivity.
  destruct (Z.ltb_spec (Z.pos p) (2 ^ 24)) as [Hlt|Hge].
  - destruct (Z.leb_spec f 104); [reflexivity | lia].
  - destruct (Z.leb_spec (f + 1) 104) as [|Hov]; [reflexivity|].
    exfalso. assert (f = 104) by lia.
    assert (m / 2 ^ (f - e) < 2 ^ 24 - 1); [|lia].
    apply Z.div_lt_upper_bound; [apply pow2_pos; lia|].
    replace (f - e) with (104 - e) by lia. lia.
Qed.



Lemma binary_round_aux_mag s m e l K :
  0 < m -> e <= fexp prec emax (Zdigits2 m + e) ->
  -149 <= K <= 127 -> Zdigits2 m + e <= K ->
  mag_le K (binary_round_aux prec emax s m e l).
Proof.
  intros Hm He HK Hd.
  destruct (binary_round_aux_spec s m e l Hm He) as (m2 & Hr & _ & ->).
  destruct (trunc_bounds m e Hm He) as [Hb _].
  destruct (Zdigits2_bounds m Hm) as (Hd0 & Hlo & Hhi).
  set (f := fexp prec emax (Zdigits2 m + e)) in *.
  assert (Hf : -149 <= f <= K - 24 \/ f = -149)
    by (unfold f; rewrite fexp_eq; lia).
  assert (Hf' : f <= 103 /\ f <= K) by lia.
  assert (Hm1 : m / 2 ^ (f - e) < 2 ^ (K - f)).
  { apply Z.div_lt_upper_bound; [apply pow2_pos; lia|].
    rewrite <- Z.pow_add_r by lia.
    assert (2 ^ Zdigits2 m <= 2 ^ (f - e + (K - f))) by (apply pow2_le; lia).
    lia. }
  unfold round_result. destruct m2 as [|p|p]; try exact I.
  destruct (Z.ltb_spec (Z.pos p) (2 ^ 24)) as [Hlt|Hge].
  - destruct (Z.leb_spec f 104); [|lia]. cbn [mag_le]. lia.
  - destruct (Z.leb_spec (f + 1) 104); [|lia]. cbn [mag_le].
    assert (24 <= K - f).
    { destruct (Z_le_gt_dec 24 (K - f)); [assumption|].
      assert (2 ^ (K - f) <= 2 ^ 23) by (apply pow2_le; lia). lia. }
    split; [lia|].
    change (Z.pos 8388608) with (2 ^ 23). apply pow2_le. lia.
Qed.

(** *** Alignment of a mantissa before rounding *)

Lemma Pos_iter_xO p d : Zpos (Pos.iter xO p d) = Zpos p * 2 ^ Zpos d.
Proof.
  induction d as [|d IH] using Pos.peano_ind.
  - cbn [Pos.iter]. rewrite (Pos2Z.inj_xO p). change (2 ^ 1) with 2. lia.
  - rewrite Pos.iter_succ, (Pos2Z.inj_xO (Pos.iter xO p d)), IH.
    rewrite Pos2Z.inj_succ, Z.pow_succ_r by lia. ring.
Qed.

Lemma shl_align_spec mx ex ex' :
  snd (shl_align mx ex ex') = Z.min ex ex'
  /\ Zpos (fst (shl_align mx ex ex')) = Zpos mx * 2 ^ (ex - Z.min ex ex').
Proof.
  unfold shl_align. destruct (ex' - ex) as [|d|d] eqn:E; cbn [fst snd].
  - replace (Z.min ex ex') with ex by lia. rewrite Z.sub_diag. split; lia.
  - replace (Z.min ex ex') with ex by lia. rewrite Z.sub_diag. split; lia.
  - replace (Z.min ex ex') with ex' by lia. rewrite Pos_iter_xO.
    replace (ex - ex') with (Z.pos d) by lia. split; reflexivity.
Qed.

Lemma Zdigits2_mul_pow2 m k :
  0 < m -> 0 <= k -> Zdigits2 (m * 2 ^ k) = Zdigits2 m + k.
Proof.
  intros Hm Hk. destruct (Zdigits2_bounds m Hm) as (Hd & Hlo & Hhi).
  pose proof (pow2_pos k Hk) as Hp.
  assert (Zdigits2 (m * 2 ^ k) <= Zdigits2 m + k).
  { apply Zdigits2_le; [nia | lia |]. rewrite Z.pow_add_r by lia. nia. }
  assert (Zdigits2 m - 1 + k + 1 <= Zdigits2 (m * 2 ^ k)).
  { apply Zdigits2_ge; [lia|]. rewrite Z.pow_add_r by lia. nia. }
  lia.
Qed.

(** [binary_round] is [binary_round_aux] on the aligned mantissa. *)
Lemma binary_round_aligned s p e :
  let k := Z.max 0 (e - fexp prec emax (Zdigits2 (Zpos p) + e)) in
  binary_round prec emax s p e
    = binary_round_aux prec emax s (Zpos p * 2 ^ k) (e - k) loc_Exact
  /\ e - k <= fexp prec emax (Zdigits2 (Zpos p * 2 ^ k) + (e - k)).
Proof.
  intros k. unfold binary_round.
  change (Z.pos (digits2_pos p)) with (Zdigits2 (Z.pos p)).
  destruct (shl_align_spec p e (fexp prec emax (Zdigits2 (Z.pos p) + e)))
    as [H1 H2].
  destruct (shl_align p e (fexp prec emax (Zdigits2 (Z.pos p) + e)))
    as [mz ez]. cbn [fst snd] in H1, H2.
  assert (Hez : ez = e - k) by (unfold k; lia).
  replace (e - Z.min e (fexp prec emax (Zdigits2 (Z.pos p) + e))) with k in H2
    by (unfold k; lia).
  rewrite Zdigits2_mul_pow2 by (unfold k; lia).
  rewrite H2, Hez.
  split; [reflexivity|].
  replace (Zdigits2 (Z.pos p) + k + (e - k)) with (Zdigits2 (Z.pos p) + e) by lia.
  unfold k. lia.
Qed.

Lemma binary_round_valid s p e :
  valid_binary prec emax (binary_round prec emax s p e) = true.
Proof.
  destruct (binary_round_aligned s p e) as [-> Hk].
  apply binary_round_aux_valid; [|exact Hk].
  pose proof (pow2_pos (Z.max 0 (e - fexp prec emax (Zdigits2 (Z.pos p) + e)))
                ltac:(lia)). nia.
Qed.

Lemma binary_round_finite s p e :
  e <= 104 -> Zpos p < (2 ^ 24 - 1) * 2 ^ (104 - e) ->
  is_finite (binary_round prec emax s p e) = true.
Proof.
  intros He Hmax. destruct (binary_round_aligned s p e) as [-> Hk].
  set (k := Z.max 0 (e - fexp prec emax (Zdigits2 (Z.pos p) + e))) in *.
  pose proof (pow2_pos k ltac:(lia)) as Hp.
  apply binary_round_aux_finite; [nia | exact Hk | lia |].
  replace (104 - (e - k)) with (104 - e + k) by lia.
  rewrite Z.pow_add_r by lia. nia.
Qed.

Lemma binary_round_mag s p e K :
  -149 <= K <= 127 -> Zdigits2 (Zpos p) + e <= K ->
  mag_le K (binary_round prec emax s p e).
Proof.
  intros HK Hd. destruct (binary_round_aligned s p e) as [-> Hk].
  set (k := Z.max 0 (e - fexp prec emax (Zdigits2 (Z.pos p) + e))) in *.
  pose proof (pow2_pos k ltac:(lia)) as Hp.
  apply binary_round_aux_mag; [nia | exact Hk | exact HK |].
  rewrite Zdigits2_mul_pow2 by lia. lia.
Qed.

(** A mantissa of at most 24 digits at a representable exponent is only
    re-aligned: the rounding is exact. *)
Lemma binary_round_exact s p e :
  Zdigits2 (Zpos p) <= 24 -> -149 <= e <= 104 ->
  exists q,
    Zpos q = Zpos p * 2 ^ (e - fexp prec emax (Zdigits2 (Zpos p) + e))
    /\ binary_round prec emax s p e
       = S754_finite s q (fexp prec emax (Zdigits2 (Zpos p) + e)).
Proof.
  intros Hd He. destruct (binary_round_aligned s p e) as [-> Hk].
  set (f := fexp prec emax (Zdigits2 (Z.pos p) + e)) in *.
  assert (Hf : -149 <= f <= e) by (unfold f; rewrite fexp_eq; lia).
  replace (Z.max 0 (e - f)) with (e - f) in * by lia.
  pose proof (pow2_pos (e - f) ltac:(lia)) as Hp.
  assert (Hm : 0 < Z.pos p * 2 ^ (e - f)) by nia.
  destruct (binary_round_aux_spec s _ _ loc_Exact Hm Hk) as (m2 & _ & Hex & ->).
  rewrite Zdigits2_mul_pow2 in Hex |- * by lia.
  replace (Zdigits2 (Z.pos p) + (e - f) + (e - (e - f)))
    with (Zdigits2 (Z.pos p) + e) in * by lia.
  fold f in Hex |- *.
  rewrite (Hex eq_refl) by lia.
  destruct (Z.pos p * 2 ^ (e - f)) as [|q|q] eqn:Eq; try lia.
  exists q. split; [reflexivity|].
  unfold round_result.
  assert (Z.pos q < 2 ^ 24).
  { rewrite <- Eq. destruct (Zdigits2_bounds (Z.pos p) ltac:(lia)) as (Hd0 & _ & Hhi).
    assert (2 ^ Zdigits2 (Z.pos p) * 2 ^ (e - f) <= 2 ^ 24).
    { rewrite <- Z.pow_add_r by lia. apply pow2_le.
      unfold f. rewrite fexp_eq. lia. }
    nia. }
  destruct (Z.ltb_spec (Z.pos q) (2 ^ 24)); [|lia].
  destruct (Z.leb_spec f 104); [reflexivity | lia].
Qed.

Lemma valid_finite_inv s m e :
  valid_binary prec emax (S754_finite s m e) = true ->
  Zdigits2 (Zpos m) <= 24 /\ -149 <= e <= 104
  /\ fexp prec emax (Zdigits2 (Zpos m) + e) = e.
Proof.
  cbn [valid_binary]. unfold bounded, canonical_mantissa.
  intros H. apply andb_prop in H. destruct H as [H1 H2].
  apply Z.eqb_eq in H1. apply Z.leb_le in H2.
  change (emax - prec) with 104 in H2.
  change (Z.pos (digits2_pos m)) with (Zdigits2 (Z.pos m)) in H1.
  pose proof H1 as H1'. rewrite fexp_eq in H1'. repeat split; lia.
Qed.

Lemma valid_finite_lt s m e :
  valid_binary prec emax (S754_finite s m e) = true -> Zpos m < 2 ^ 24.
Proof.
  intros H. apply valid_finite_inv in H. destruct H as (Hd & _ & _).
  destruct (Zdigits2_bounds (Z.pos m) ltac:(lia)) as (Hd0 & _ & Hhi).
  assert (2 ^ Zdigits2 (Z.pos m) <= 2 ^ 24) by (apply pow2_le; lia). lia.
Qed.

Lemma binary_normalize_finite m e sz :
  e <= 104 -> Z.abs m < (2 ^ 24 - 1) * 2 ^ (104 - e) ->
  finite_float (binary_normalize prec emax m e sz).
Proof.
  intros He Hm. unfold finite_float, binary_normalize.
  destruct m as [|p|p].
  - split; reflexivity.
  - split; [apply binary_round_finite; assumption | apply binary_round_valid].
  - split; [apply binary_round_finite; assumption | apply binary_round_valid].
Qed.

(** *** Addition *)

(** The sum of two finite floats of opposite signs is finite. *)
Lemma fadd_opposite_finite sx mx ex my ey :
  valid_binary prec emax (S754_finite sx mx ex) = true ->
  valid_binary prec emax (S754_finite (negb sx) my ey) = true ->
  finite_float (fadd (S754_finite sx mx ex) (S754_finite (negb sx) my ey)).
Proof.
  intros Hx Hy. unfold fadd, SFadd.
  pose proof (valid_finite_lt _ _ _ Hx) as Hmx.
  pose proof (valid_finite_lt _ _ _ Hy) as Hmy.
  apply valid_finite_inv in Hx, Hy.
  destruct Hx as (_ & Hex & _), Hy as (_ & Hey & _).
  destruct (shl_align_spec mx ex (Z.min ex ey)) as [_ ->].
  destruct (shl_align_spec my ey (Z.min ex ey)) as [_ ->].
  replace (Z.min ex (Z.min ex ey)) with (Z.min ex ey) by lia.
  replace (Z.min ey (Z.min ex ey)) with (Z.min ex ey) by lia.
  set (ez := Z.min ex ey).
  pose proof (pow2_pos (ex - ez) ltac:(lia)) as Hpx.
  pose proof (pow2_pos (ey - ez) ltac:(lia)) as Hpy.
  assert (Bx : Z.pos mx * 2 ^ (ex - ez) <= (2 ^ 24 - 1) * 2 ^ (104 - ez)).
  { rewrite (pow2_split (ex - ez) (104 - ez)) by lia.
    pose proof (pow2_pos (104 - ez - (ex - ez)) ltac:(lia)). nia. }
  assert (By : Z.pos my * 2 ^ (ey - ez) <= (2 ^ 24 - 1) * 2 ^ (104 - ez)).
  { rewrite (pow2_split (ey - ez) (104 - ez)) by lia.
    pose proof (pow2_pos (104 - ez - (ey - ez)) ltac:(lia)). nia. }
  apply binary_normalize_finite; [lia|].
  destruct sx; cbn [negb cond_Zopp]; nia.
Qed.

(** The sum of a float of magnitude at most [2^126] and one of magnitude at
    most [2^127] is finite. *)
Lemma fadd_bounded_finite x y :
  valid_binary prec emax x = true -> valid_binary prec emax y = true ->
  mag_le 126 x -> mag_le 127 y -> finite_float (fadd x y).
Proof.
  intros Vx Vy Mx My. unfold fadd.
  destruct x as [sx|sx| |sx mx ex]; try contradiction;
    destruct y as [sy|sy| |sy my ey]; try contradiction.
  - destruct sx, sy; split; reflexivity.
  - split; [reflexivity | exact Vy].
  - split; [reflexivity | exact Vx].
  - unfold SFadd. cbn [mag_le] in Mx, My.
    destruct Mx as [Mx1 Mx2], My as [My1 My2].
    pose proof (valid_finite_inv _ _ _ Vx) as (_ & Hex & _).
    pose proof (valid_finite_inv _ _ _ Vy) as (_ & Hey & _).
    destruct (shl_align_spec mx ex (Z.min ex ey)) as [_ ->].
    destruct (shl_align_spec my ey (Z.min ex ey)) as [_ ->].
    replace (Z.min ex (Z.min ex ey)) with (Z.min ex ey) by lia.
    replace (Z.min ey (Z.min ex ey)) with (Z.min ex ey) by lia.
    set (ez := Z.min ex ey).
    pose proof (pow2_pos (ex - ez) ltac:(lia)) as Hpx.
    pose proof (pow2_pos (ey - ez) ltac:(lia)) as Hpy.
    assert (Bx : Z.pos mx * 2 ^ (ex - ez) <= 2 ^ 22 * 2 ^ (104 - ez)).
    { rewrite <- Z.pow_add_r by lia.
      rewrite (pow2_split (ex - ez) (22 + (104 - ez))) by lia.
      replace (22 + (104 - ez) - (ex - ez)) with (126 - ex) by lia. nia. }
    assert (By : Z.pos my * 2 ^ (ey - ez) <= 2 ^ 23 * 2 ^ (104 - ez)).
    { rewrite <- Z.pow_add_r by lia.
      rewrite (pow2_split (ey - ez) (23 + (104 - ez))) by lia.
      replace (23 + (104 - ez) - (ey - ez)) with (127 - ey) by lia. nia. }
    pose proof (pow2_pos (104 - ez) ltac:(lia)) as Hpz.
    apply binary_normalize_finite; [lia|].
    destruct sx, sy; cbn [cond_Zopp]; nia.
Qed.

(** *** The constants, evaluated *)

Lemma PI_eq : PI = S754_finite false 13176795 (-22).
Proof. vm_compute. reflexivity. Qed.

Lemma PI2_eq : PI2 = S754_finite false 13176795 (-21).
Proof. vm_compute. reflexivity. Qed.

Lemma f180_eq : f180 = S754_finite false 11796480 (-16).
Proof. vm_compute. reflexivity. Qed.

Lemma f360_eq : f360 = S754_finite false 11796480 (-15).
Proof. vm_compute. reflexivity. Qed.

Lemma f1000_eq : f1000 = S754_finite false 16384000 (-14).
Proof. vm_compute. reflexivity. Qed.

Lemma sweep_eq : fmul f24 DEG2RAD = S754_finite false 14055248 (-25).
Proof. vm_compute. reflexivity. Qed.

(** *** [fmodf] *)


Lemma nonneg_below_in_turn y r :
  nonneg_below y r ->
  is_finite y = true -> flt f0 y = true ->
  valid_binary prec emax r = true /\ in_turn y r = true.
Proof.
  unfold in_turn. destruct r as [s|s| |s m e]; cbn [nonneg_below]; try contradiction.
  - intros -> Hy Hlt. split; [reflexivity|]. exact Hlt.
  - intros (-> & Hv & Hlt) _ _. split; [exact Hv|]. rewrite Hlt. reflexivity.
Qed.

Lemma fmodf_finite_cases sx mx ex sy my ey :
  valid_binary prec emax (S754_finite sx mx ex) = true ->
  valid_binary prec emax (S754_finite sy my ey) = true ->
  let e := Z.min ex ey in
  let R := (Zpos mx * 2 ^ (ex - e)) mod (Zpos my * 2 ^ (ey - e)) in
  0 <= R < Zpos my * 2 ^ (ey - e) /\
  ((R = 0 /\ fmodf (S754_finite sx mx ex) (S754_finite sy my ey) = S754_zero sx)
   \/ (0 < R /\ exists q,
         Zpos q = R * 2 ^ (e - fexp prec emax (Zdigits2 R + e))
         /\ fexp prec emax (Zdigits2 R + e) <= e
         /\ valid_binary prec emax
              (S754_finite sx q (fexp prec emax (Zdigits2 R + e))) = true
         /\ fmodf (S754_finite sx mx ex) (S754_finite sy my ey)
            = S754_finite sx q (fexp prec emax (Zdigits2 R + e)))).
Proof.
  intros Vx Vy e R.
  pose proof (valid_finite_lt _ _ _ Vx) as Hmx.
  pose proof (valid_finite_lt _ _ _ Vy) as Hmy.
  pose proof (valid_finite_inv _ _ _ Vx) as (_ & Hex & _).
  pose proof (valid_finite_inv _ _ _ Vy) as (_ & Hey & _).
  pose proof (pow2_pos (ex - e) ltac:(lia)) as Hpx.
  pose proof (pow2_pos (ey - e) ltac:(lia)) as Hpy.
  assert (HY : 0 < Z.pos my * 2 ^ (ey - e)) by nia.
  assert (HR : 0 <= R < Z.pos my * 2 ^ (ey - e)) by (apply Z.mod_pos_bound; exact HY).
  split; [exact HR|].
  assert (HRX : R <= Z.pos mx * 2 ^ (ex - e)) by (apply Z.mod_le; nia).
  assert (HR24 : R < 2 ^ 24).
  { destruct (Z_le_gt_dec ex ey).
    - replace (ex - e) with 0 in HRX by lia. change (2 ^ 0) with 1 in HRX. lia.
    - replace (ey - e) with 0 in HR by lia. change (2 ^ 0) with 1 in HR. lia. }
  unfold fmodf. fold e. fold R.
  destruct (Z.eq_dec R 0) as [E0|N0].
  - left. split; [exact E0|]. rewrite E0. destruct sx; reflexivity.
  - right. split; [lia|].
    destruct R as [|r|r] eqn:ER; try lia.
    assert (Hd : Zdigits2 (Z.pos r) <= 24) by (apply Zdigits2_le; lia).
    destruct (binary_round_exact sx r e Hd ltac:(lia)) as (q & Hq & Hbr).
    exists q. split; [exact Hq|]. split; [rewrite fexp_eq; lia|].
    split; [rewrite <- Hbr; apply binary_round_valid|].
    rewrite <- Hbr. destruct sx; reflexivity.
Qed.


(** Reducing a finite magnitude modulo a positive float lands in [[0, y)]. *)
Lemma fmodf_fabsf_below t my ey :
  finite_float t ->
  valid_binary prec emax (S754_finite false my ey) = true ->
  nonneg_below (S754_finite false my ey)
    (fmodf (fabsf t) (S754_finite false my ey)).
Proof.
  intros [Ft Vt] Vy. destruct t as [s|s| |s m e]; try discriminate.
  - reflexivity.
  - cbn [fabsf SFabs].
    assert (Vt' : valid_binary prec emax (S754_finite false m e) = true) by exact Vt.
    destruct (fmodf_finite_cases false m e false my ey Vt' Vy)
      as (HR & [(_ & ->) | (Hpos & q & Hq & Hf & Hv & ->)]).
    + reflexivity.
    + cbn [nonneg_below]. split; [reflexivity|]. split; [exact Hv|].
      set (f := fexp prec emax _) in *.
      unfold flt, SFltb, SFcompare.
      destruct (Z.compare_spec f ey) as [E|L|G]; [|reflexivity|lia].
      assert (Z.min e ey = ey) by lia.
      replace (Z.min e ey) with ey in * by lia.
      rewrite E, !Z.sub_diag in *. change (2 ^ 0) with 1 in *.
      fold (Pos.compare q my).
      assert (q < my)%positive by lia.
      rewrite (proj2 (Pos.compare_lt_iff q my)) by assumption. reflexivity.
Qed.

(** When the argument is already below the modulus, [fmodf] returns it. *)
Lemma fmodf_small r my ey :
  nonneg_below (S754_finite false my ey) r ->
  valid_binary prec emax (S754_finite false my ey) = true ->
  fmodf r (S754_finite false my ey) = r.
Proof.
  destruct r as [s|s| |s m e]; cbn [nonneg_below]; try contradiction.
  - intros -> _. reflexivity.
  - intros (-> & Vr & Hlt) Vy.
    pose proof (valid_finite_lt _ _ _ Vr) as Hm.
    pose proof (valid_finite_inv _ _ _ Vr) as (Hd & He & Hc).
    pose proof (valid_finite_inv _ _ _ Vy) as (Hdy & Hey & Hcy).
    assert (Hcmp : e < ey \/ (e = ey /\ Z.pos m < Z.pos my)).
    { revert Hlt. unfold flt, SFltb, SFcompare.
      destruct (Z.compare_spec e ey) as [E|L|G]; [|lia|discriminate].
      fold (Pos.compare m my).
      destruct (Pos.compare_spec m my); try discriminate. lia. }
    assert (Hmin : Z.min e ey = e) by lia.
    assert (HXY : Z.pos m < Z.pos my * 2 ^ (ey - e)).
    { destruct Hcmp as [L|[E L]].
      - assert (24 <= Zdigits2 (Z.pos my)) by (rewrite fexp_eq in Hcy; lia).
        destruct (Zdigits2_bounds (Z.pos my) ltac:(lia)) as (_ & Hlo & _).
        assert (2 ^ 23 <= 2 ^ (Zdigits2 (Z.pos my) - 1)) by (apply pow2_le; lia).
        assert (2 ^ 1 <= 2 ^ (ey - e)) by (apply pow2_le; lia).
        change (2 ^ 1) with 2 in *. nia.
      - rewrite E, Z.sub_diag. change (2 ^ 0) with 1. lia. }
    unfold fmodf. rewrite Hmin, Z.sub_diag. change (2 ^ 0) with 1.
    rewrite Z.mul_1_r, Z.mod_small by lia.
    cbn [cond_Zopp binary_normalize].
    destruct (binary_round_exact false m e Hd He) as (q & Hq & ->).
    rewrite Hc in *. rewrite Z.sub_diag in Hq. change (2 ^ 0) with 1 in Hq.
    f_equal. lia.
Qed.

(* ================================================================= *)
(** ** The angle normalizers *)

Lemma fixRadian_normalize x : fixRadian x = normalize_spec PI PI2 x.
Proof. reflexivity. Qed.

Lemma fixDegree_normalize x : fixDegree x = normalize_spec f180 f360 x.
Proof. reflexivity. Qed.

Lemma flt_zero_sign x :
  finite_float x ->
  if flt x f0
  then exists m e, x = S754_finite true m e
  else fabsf x = x \/ exists s, x = S754_zero s.
Proof.
  intros [Fx _]. destruct x as [s|s| |[] m e]; try discriminate; cbn.
  - right. eauto.
  - eauto.
  - left. reflexivity.
Qed.

Lemma normalize_below mh eh mf ef x :
  valid_binary prec emax (S754_finite false mh eh) = true ->
  valid_binary prec emax (S754_finite false mf ef) = true ->
  finite_float x ->
  nonneg_below (S754_finite false mf ef)
    (normalize_spec (S754_finite false mh eh) (S754_finite false mf ef) x).
Proof.
  intros Vh Vf Fx. unfold normalize_spec.
  pose proof (flt_zero_sign x Fx) as Hs.
  destruct (flt x f0).
  - destruct Hs as (m & e & ->).
    apply fmodf_fabsf_below; [|exact Vf].
    apply (fadd_opposite_finite true m e mh eh); [apply Fx | exact Vh].
  - apply fmodf_fabsf_below; assumption.
Qed.

Lemma nonneg_below_fabsf y r :
  nonneg_below y r -> flt r f0 = false /\ fabsf r = r.
Proof.
  destruct r as [s|s| |s m e]; cbn [nonneg_below]; try contradiction.
  - intros ->. split; reflexivity.
  - intros (-> & _). split; reflexivity.
Qed.

Lemma normalize_fixpoint mh eh mf ef r :
  valid_binary prec emax (S754_finite false mf ef) = true ->
  nonneg_below (S754_finite false mf ef) r ->
  normalize_spec (S754_finite false mh eh) (S754_finite false mf ef) r = r.
Proof.
  intros Vf Hr. unfold normalize_spec.
  destruct (nonneg_below_fabsf _ _ Hr) as [-> ->].
  apply fmodf_small; assumption.
Qed.

Lemma fixRadian_below x : finite_float x -> nonneg_below PI2 (fixRadian x).
Proof.
  intros Fx. rewrite fixRadian_normalize, PI_eq, PI2_eq.
  apply normalize_below; [reflexivity | reflexivity | exact Fx].
Qed.

Lemma fixDegree_below x : finite_float x -> nonneg_below f360 (fixDegree x).
Proof.
  intros Fx. rewrite fixDegree_normalize, f180_eq, f360_eq.
  apply normalize_below; [reflexivity | reflexivity | exact Fx].
Qed.

Lemma fixRadian_fixpoint r : nonneg_below PI2 r -> fixRadian r = r.
Proof.
  rewrite fixRadian_normalize, PI_eq, PI2_eq.
  apply normalize_fixpoint. reflexivity.
Qed.

Lemma nonneg_below_angle_ok r : nonneg_below PI2 r -> angle_ok r.
Proof.
  intros H. apply nonneg_below_in_turn; [exact H | |]; rewrite PI2_eq; reflexivity.
Qed.

Lemma fixRadian_angle_ok x : finite_float x -> angle_ok (fixRadian x).
Proof. intros Fx. apply nonneg_below_angle_ok, fixRadian_below, Fx. Qed.

Lemma nonneg_below_finite y r : nonneg_below y r -> finite_float r.
Proof.
  destruct r as [s|s| |s m e]; cbn [nonneg_below]; try contradiction.
  - intros _. split; reflexivity.
  - intros (_ & Hv & _). split; [reflexivity | exact Hv].
Qed.

(** The program's comparisons on finite floats of one sign. *)
Lemma flt_finite_pos m1 e1 m2 e2 :
  flt (S754_finite false m1 e1) (S754_finite false m2 e2) = true
  <-> e1 < e2 \/ (e1 = e2 /\ Zpos m1 < Zpos m2).
Proof.
  unfold flt, SFltb, SFcompare.
  destruct (Z.compare_spec e1 e2) as [E|L|G].
  - fold (Pos.compare m1 m2).
    destruct (Pos.compare_spec m1 m2) as [Hc|Hc|Hc]; split; intros H;
      try discriminate; try reflexivity; lia.
  - split; [intros _; left; exact L | reflexivity].
  - split; [discriminate | intros H; lia].
Qed.

Lemma fle_finite_neg m1 e1 m2 e2 :
  fle (S754_finite true m1 e1) (S754_finite true m2 e2) = true
  <-> e2 < e1 \/ (e1 = e2 /\ Zpos m2 <= Zpos m1).
Proof.
  unfold fle, SFleb, SFcompare.
  destruct (Z.compare_spec e1 e2) as [E|L|G].
  - fold (Pos.compare m1 m2).
    destruct (Pos.compare_spec m1 m2) as [Hc|Hc|Hc]; cbn [CompOpp]; split;
      intros H; try discriminate; try reflexivity; lia.
  - split; [discriminate | intros H; lia].
  - split; [intros _; left; lia | reflexivity].
Qed.

Lemma below_PI2_inv s m e :
  nonneg_below PI2 (S754_finite s m e) ->
  s = false /\ Zpos m < 2 ^ 24 /\ -149 <= e
  /\ (e < -21 \/ (e = -21 /\ Zpos m < 13176795)).
Proof.
  cbn [nonneg_below]. intros (-> & Hv & Hlt).
  pose proof (valid_finite_lt _ _ _ Hv) as Hm.
  pose proof (valid_finite_inv _ _ _ Hv) as (_ & He & _).
  split; [reflexivity|]. split; [exact Hm|]. split; [lia|].
  rewrite PI2_eq in Hlt. apply flt_finite_pos in Hlt. exact Hlt.
Qed.

(** Every float below [PI2] is below [6.2831853], hence below the real
    [2 * pi] too. *)
Lemma below_PI2_decimal r :
  nonneg_below PI2 r -> 10 ^ 7 * ulps r < 62831853 * 2 ^ 149.
Proof.
  destruct r as [s|s| |s m e]; cbn [nonneg_below]; try contradiction.
  - intros _. cbn. lia.
  - intros H. apply below_PI2_inv in H. destruct H as (-> & Hm & He & Hc).
    cbn [ulps cond_Zopp].
    pose proof (pow2_pos (e + 149) ltac:(lia)) as Hp.
    destruct Hc as [L|[-> L]].
    + assert (2 ^ (e + 149) <= 2 ^ 127) by (apply pow2_le; lia).
      assert (Z.pos m * 2 ^ (e + 149) < 2 ^ 24 * 2 ^ 127) by nia. lia.
    + change (-21 + 149) with 128. lia.
Qed.

Lemma binary_round_sign s p e :
  match binary_round prec emax s p e with
  | S754_zero s' | S754_infinity s' | S754_finite s' _ _ => s' = s
  | S754_nan => False
  end.
Proof.
  destruct (binary_round_aligned s p e) as [-> Hk].
  set (k := Z.max 0 (e - fexp prec emax (Zdigits2 (Z.pos p) + e))) in *.
  pose proof (pow2_pos k ltac:(lia)) as Hp.
  assert (Hm : 0 < Z.pos p * 2 ^ k) by nia.
  destruct (binary_round_aux_spec s _ _ loc_Exact Hm Hk) as (m2 & _ & _ & ->).
  unfold round_result. destruct m2 as [|q|q]; try reflexivity.
  destruct (Z.pos q <? 2 ^ 24); [destruct (_ <=? 104) | destruct (_ + 1 <=? 104)];
    reflexivity.
Qed.

(** A valid non-negative float of magnitude at most [4] is below [PI2]. *)
Lemma mag_le_2_below r :
  valid_binary prec emax r = true -> mag_le 2 r ->
  match r with
  | S754_zero s | S754_finite s _ _ => s = false
  | _ => True
  end ->
  nonneg_below PI2 r.
Proof.
  destruct r as [s|s| |s m e]; cbn [mag_le nonneg_below]; try contradiction.
  - intros _ _ Hs. exact Hs.
  - intros Hv [He Hm] ->. split; [reflexivity|]. split; [exact Hv|].
    pose proof (valid_finite_inv _ _ _ Hv) as (Hd & Hr & Hc).
    rewrite fexp_eq in Hc. rewrite PI2_eq.
    assert (Hcases : e < -21 \/ (e = -21 /\ Z.pos m <= 2 ^ 23)).
    { destruct (Z_lt_ge_dec e (-21)) as [L|G]; [left; exact L | right].
      assert (24 <= Zdigits2 (Z.pos m)) by lia.
      destruct (Zdigits2_bounds (Z.pos m) ltac:(lia)) as (_ & Hlo & _).
      assert (2 ^ 23 <= 2 ^ (Zdigits2 (Z.pos m) - 1)) by (apply pow2_le; lia).
      destruct (Z.eq_dec e (-21)) as [->|Hne]; [split; [reflexivity | exact Hm]|].
      assert (2 ^ (2 - e) <= 2 ^ 22) by (apply pow2_le; lia). lia. }
    apply flt_finite_pos. change (Z.pos 13176795) with 13176795.
    change (2 ^ 23) with 8388608 in Hcases. lia.
Qed.

(** A negative float not below [-PI] plus [PI]: a float of [[0, PI2)]. *)
Lemma fadd_half_turn mx ex :
  valid_binary prec emax (S754_finite true mx ex) = true ->
  fle (fneg PI) (S754_finite true mx ex) = true ->
  nonneg_below PI2 (fadd (S754_finite true mx ex) PI).
Proof.
  intros Vx Hle. rewrite PI_eq in *.
  pose proof (valid_finite_lt _ _ _ Vx) as Hmx.
  pose proof (valid_finite_inv _ _ _ Vx) as (_ & Hex & _).
  assert (Hc : ex < -22 \/ (ex = -22 /\ Z.pos mx <= 13176795)).
  { cbn [fneg SFopp negb] in Hle. apply fle_finite_neg in Hle. lia. }
  unfold fadd, SFadd.
  destruct (shl_align_spec mx ex (Z.min ex (-22))) as [_ ->].
  destruct (shl_align_spec 13176795 (-22) (Z.min ex (-22))) as [_ ->].
  replace (Z.min ex (Z.min ex (-22))) with ex by lia.
  replace (Z.min (-22) (Z.min ex (-22))) with ex by lia.
  replace (Z.min ex (-22)) with ex by lia.
  rewrite Z.sub_diag. change (2 ^ 0) with 1. rewrite Z.mul_1_r.
  cbn [cond_Zopp].
  pose proof (pow2_pos (-22 - ex) ltac:(lia)) as Hp.
  set (D := - Z.pos mx + 13176795 * 2 ^ (-22 - ex)).
  assert (HD : 0 <= D < 2 ^ 24 * 2 ^ (-22 - ex)).
  { unfold D. destruct Hc as [L|[-> L]].
    - assert (2 ^ 1 <= 2 ^ (-22 - ex)) by (apply pow2_le; lia).
      change (2 ^ 1) with 2 in *. lia.
    - change (2 ^ (-22 - -22)) with 1 in *. lia. }
  destruct D as [|p|p] eqn:ED; try lia; [reflexivity|].
  cbn [binary_normalize].
  apply mag_le_2_below.
  - apply binary_round_valid.
  - apply binary_round_mag; [lia|].
    assert (Zdigits2 (Z.pos p) <= 24 + (-22 - ex)); [|lia].
    apply Zdigits2_le; [lia | lia |]. rewrite Z.pow_add_r by lia. lia.
  - pose proof (binary_round_sign false p ex) as Hs.
    destruct (binary_round prec emax false p ex); try exact Hs; exact I.
Qed.

(** On non-negative arguments [fmodf] is the remainder of the exact values. *)
Lemma fmodf_ulps mx ex my ey :
  valid_binary prec emax (S754_finite false mx ex) = true ->
  valid_binary prec emax (S754_finite false my ey) = true ->
  ulps (fmodf (S754_finite false mx ex) (S754_finite false my ey))
  = ulps (S754_finite false mx ex) mod ulps (S754_finite false my ey).
Proof.
  intros Vx Vy.
  pose proof (valid_finite_inv _ _ _ Vx) as (_ & Hex & _).
  pose proof (valid_finite_inv _ _ _ Vy) as (_ & Hey & _).
  destruct (fmodf_finite_cases false mx ex false my ey Vx Vy)
    as (HR & Hcases).
  set (e := Z.min ex ey) in *.
  set (R := (Z.pos mx * 2 ^ (ex - e)) mod (Z.pos my * 2 ^ (ey - e))) in *.
  assert (Hmod : ulps (S754_finite false mx ex) mod ulps (S754_finite false my ey)
                 = R * 2 ^ (e + 149)).
  { cbn [ulps cond_Zopp].
    rewrite (pow2_split (e + 149) (ex + 149)) by lia.
    rewrite (pow2_split (e + 149) (ey + 149)) by lia.
    replace (ex + 149 - (e + 149)) with (ex - e) by lia.
    replace (ey + 149 - (e + 149)) with (ey - e) by lia.
    rewrite !Z.mul_assoc.
    pose proof (pow2_pos (e + 149) ltac:(lia)).
    pose proof (pow2_pos (ey - e) ltac:(lia)).
    rewrite Z.mul_mod_distr_r by nia. reflexivity. }
  rewrite Hmod.
  destruct Hcases as [(E0 & ->) | (Hpos & q & Hq & Hf & _ & ->)].
  - rewrite E0. reflexivity.
  - cbn [ulps cond_Zopp]. rewrite Hq.
    set (f := fexp prec emax (Zdigits2 R + e)) in *.
    assert (-149 <= f) by (unfold f; rewrite fexp_eq; lia).
    rewrite <- Z.mul_assoc, <- Z.pow_add_r by lia.
    do 2 f_equal. lia.
Qed.

(** *** Multiplication *)

Lemma Zdigits2_mul a b :
  0 < a -> 0 < b ->
  Zdigits2 a + Zdigits2 b - 1 <= Zdigits2 (a * b) <= Zdigits2 a + Zdigits2 b.
Proof.
  intros Ha Hb.
  destruct (Zdigits2_bounds a Ha) as (Hda & Hla & Hha).
  destruct (Zdigits2_bounds b Hb) as (Hdb & Hlb & Hhb).
  pose proof (pow2_pos (Zdigits2 a - 1) ltac:(lia)).
  pose proof (pow2_pos (Zdigits2 b - 1) ltac:(lia)).
  split.
  - assert (Zdigits2 a - 1 + (Zdigits2 b - 1) + 1 <= Zdigits2 (a * b)); [|lia].
    apply Zdigits2_ge; [lia|]. rewrite Z.pow_add_r by lia. nia.
  - apply Zdigits2_le; [nia | lia |]. rewrite Z.pow_add_r by lia. nia.
Qed.

Lemma mag_le_finite K x : mag_le K x -> is_finite x = true.
Proof. destruct x; cbn; intros H; try contradiction; reflexivity. Qed.

Lemma fmul_finite Ka Kb x y :
  valid_binary prec emax x = true -> valid_binary prec emax y = true ->
  mag_lt Ka x -> mag_lt Kb y -> -149 <= Ka + Kb <= 127 ->
  finite_float (fmul x y) /\ mag_le (Ka + Kb) (fmul x y).
Proof.
  intros Vx Vy Mx My HK. unfold fmul.
  destruct x as [sx|sx| |sx mx ex]; try contradiction;
    destruct y as [sy|sy| |sy my ey]; try contradiction;
    try (repeat split; reflexivity).
  cbn [SFmul mag_lt] in *.
  pose proof (valid_finite_inv _ _ _ Vx) as (Hdx & Hex & Hcx).
  pose proof (valid_finite_inv _ _ _ Vy) as (Hdy & Hey & Hcy).
  rewrite fexp_eq in Hcx, Hcy.
  rewrite Pos2Z.inj_mul.
  pose proof (Zdigits2_mul (Z.pos mx) (Z.pos my) ltac:(lia) ltac:(lia)) as Hd.
  destruct (Zdigits2_bounds (Z.pos mx) ltac:(lia)) as (Hd1 & _).
  destruct (Zdigits2_bounds (Z.pos my) ltac:(lia)) as (Hd2 & _).
  assert (Hm : 0 < Z.pos mx * Z.pos my) by lia.
  assert (Hpre : ex + ey
                 <= fexp prec emax (Zdigits2 (Z.pos mx * Z.pos my) + (ex + ey)))
    by (rewrite fexp_eq; lia).
  assert (Hmag : mag_le (Ka + Kb)
                   (binary_round_aux prec emax (xorb sx sy)
                      (Z.pos mx * Z.pos my) (ex + ey) loc_Exact))
    by (apply binary_round_aux_mag; lia).
  split; [|exact Hmag]. split.
  - exact (mag_le_finite _ _ Hmag).
  - apply binary_round_aux_valid; assumption.
Qed.

Lemma valid_finite_mag_lt x :
  is_finite x = true -> valid_binary prec emax x = true -> mag_lt 128 x.
Proof.
  destruct x as [s|s| |s m e]; try discriminate; intros _ V; [exact I|].
  apply valid_finite_inv in V. cbn [mag_lt]. lia.
Qed.

(** *** The time step *)

Lemma float_of_Z_shape u :
  0 < u < 2 ^ 32 ->
  exists m e, float_of_Z u = S754_finite false m e
              /\ 2 ^ 23 <= Zpos m < 2 ^ 24 /\ -23 <= e <= 9.
Proof.
  intros Hu. destruct u as [|p|p]; try lia.
  unfold float_of_Z. cbn [binary_normalize].
  destruct (binary_round_aligned false p 0) as [-> Hk].
  set (k := Z.max 0 (0 - fexp prec emax (Zdigits2 (Z.pos p) + 0))) in *.
  pose proof (pow2_pos k ltac:(lia)) as Hp.
  assert (Hm : 0 < Z.pos p * 2 ^ k) by nia.
  destruct (binary_round_aux_spec false _ _ loc_Exact Hm Hk) as (m2 & Hr & _ & ->).
  destruct (trunc_bounds _ _ Hm Hk) as [Hb Hlo].
  rewrite Zdigits2_mul_pow2 in * by lia.
  replace (Zdigits2 (Z.pos p) + k + (0 - k)) with (Zdigits2 (Z.pos p)) in * by lia.
  destruct (Zdigits2_bounds (Z.pos p) ltac:(lia)) as (Hd0 & _).
  assert (Hd : Zdigits2 (Z.pos p) <= 32) by (apply Zdigits2_le; lia).
  rewrite fexp_eq in *.
  replace (Z.max (Zdigits2 (Z.pos p) - 24) (-149))
    with (Zdigits2 (Z.pos p) - 24) in * by lia.
  specialize (Hlo ltac:(lia)).
  unfold round_result. destruct m2 as [|q|q]; try lia.
  destruct (Z.ltb_spec (Z.pos q) (2 ^ 24)).
  - destruct (Z.leb_spec (Zdigits2 (Z.pos p) - 24) 104); [|lia].
    eexists _, _. split; [reflexivity|]. lia.
  - destruct (Z.leb_spec (Zdigits2 (Z.pos p) - 24 + 1) 104); [|lia].
    eexists _, _. split; [reflexivity|]. lia.
Qed.

Lemma SFdiv_core_binary_eq m1 e1 m2 e2 :
  0 < m1 -> 0 < m2 ->
  exists l,
    SFdiv_core_binary prec emax m1 e1 m2 e2
    = (m1 * 2 ^ (e1 - e2
                 - Z.min (fexp prec emax (Zdigits2 m1 + e1 - (Zdigits2 m2 + e2)))
                         (e1 - e2)) / m2,
       Z.min (fexp prec emax (Zdigits2 m1 + e1 - (Zdigits2 m2 + e2))) (e1 - e2),
       l).
Proof.
  intros H1 H2. unfold SFdiv_core_binary.
  set (e' := Z.min _ (e1 - e2)).
  set (m' := match e1 - e2 - e' with Z0 => m1 | Zpos _ => _ | Zneg _ => _ end).
  assert (Hm' : m' = m1 * 2 ^ (e1 - e2 - e')).
  { unfold m'. destruct (e1 - e2 - e') as [|s|s] eqn:Es.
    - change (2 ^ 0) with 1. lia.
    - apply Z.shiftl_mul_pow2. lia.
    - unfold e' in Es. lia. }
  destruct (Z.div_eucl m' m2) as [q r] eqn:Ed.
  exists (new_location m2 r).
  rewrite <- Hm'. unfold Z.div. rewrite Ed. reflexivity.
Qed.

Lemma delta_time_finite a b : finite_float (delta_time a b).
Proof.
  unfold delta_time, ulong_sub.
  pose proof (Z.mod_pos_bound (a - b) (2 ^ 32) ltac:(lia)) as Hu.
  destruct (Z.eq_dec ((a - b) mod 2 ^ 32) 0) as [->|Hnz].
  - split; reflexivity.
  - destruct (float_of_Z_shape ((a - b) mod 2 ^ 32) ltac:(lia))
      as (m & e & -> & Hm & He).
    rewrite f1000_eq. unfold fdiv. cbn [SFdiv].
    destruct (SFdiv_core_binary_eq (Z.pos m) e (Z.pos 16384000) (-14)
                ltac:(lia) ltac:(lia)) as (l & ->).
    assert (Hd : Zdigits2 (Z.pos m) = 24).
    { assert (Zdigits2 (Z.pos m) <= 24) by (apply Zdigits2_le; lia).
      assert (23 + 1 <= Zdigits2 (Z.pos m)) by (apply Zdigits2_ge; lia). lia. }
    rewrite Hd. change (Zdigits2 (Z.pos 16384000)) with 24.
    rewrite fexp_eq.
    replace (Z.min (Z.max (24 + e - (24 + -14) - 24) (-149)) (e - -14))
      with (e - 10) by lia.
    replace (e - -14 - (e - 10)) with 24 by lia.
    set (q := Z.pos m * 2 ^ 24 / Z.pos 16384000).
    assert (Hq : 2 ^ 23 <= q < 2 ^ 25).
    { unfold q. split.
      - apply Z.div_le_lower_bound; lia.
      - apply Z.div_lt_upper_bound; lia. }
    assert (Hdq : 24 <= Zdigits2 q) by (apply (Zdigits2_ge q 23); lia).
    assert (Hpre : e - 10 <= fexp prec emax (Zdigits2 q + (e - 10)))
      by (rewrite fexp_eq; lia).
    split.
    + apply binary_round_aux_finite; [lia | exact Hpre | lia |].
      assert (2 ^ 25 <= 2 ^ (104 - (e - 10))) by (apply pow2_le; lia). lia.
    + apply binary_round_aux_valid; [lia | exact Hpre].
Qed.

(* ================================================================= *)
(** ** The stabilization law and the estimator, one tick at a time *)

Lemma nonneg_below_PI2_mag c : nonneg_below PI2 c -> mag_le 126 c.
Proof.
  destruct c as [s|s| |s m e]; cbn [mag_le]; try contradiction; [trivial|].
  intros H. apply below_PI2_inv in H. destruct H as (_ & Hm & He & Hc).
  split; [lia|].
  assert (2 ^ 24 <= 2 ^ (126 - e)) by (apply pow2_le; lia). lia.
Qed.

Lemma canard_step_below dt c :
  finite_float dt -> nonneg_below PI2 c -> nonneg_below PI2 (canard_step dt c).
Proof.
  intros Fdt Hc. unfold canard_step. apply fixRadian_below. rewrite sweep_eq.
  destruct (fmul_finite (-1) 128 (S754_finite false 14055248 (-25)) dt)
    as [Fv Mv].
  - reflexivity.
  - apply Fdt.
  - cbn. lia.
  - apply valid_finite_mag_lt; apply Fdt.
  - lia.
  - apply fadd_bounded_finite.
    + apply (nonneg_below_finite _ _ Hc).
    + apply Fv.
    + apply nonneg_below_PI2_mag, Hc.
    + exact Mv.
Qed.

Lemma StabilizationSystem_eq dt rk :
  length (canard_rotations rk) = 4%nat ->
  StabilizationSystem dt rk
  = mkRocket (pitch rk) (roll rk) (yaw rk)
             (map (canard_step dt) (canard_rotations rk)).
Proof.
  destruct rk as [p r y cs].
  destruct cs as [|c0 [|c1 [|c2 [|c3 [|c4 cs]]]]]; try discriminate.
  intros _. reflexivity.
Qed.

Lemma SetOrientationFromSensors_eq atan2f dt icm rk :
  SetOrientationFromSensors atan2f dt icm rk
  = if dataReady icm
    then mkRocket (fixRadian (roll_formula atan2f (getAGMT icm)))
                  (fixRadian (roll_formula atan2f (getAGMT icm)))
                  (fixRadian (yaw_formula atan2f (getAGMT icm)))
                  (canard_rotations rk)
    else rk.
Proof. reflexivity. Qed.

Lemma Rocket_init_ok : rocket_ok Rocket_init.
Proof. split; [reflexivity|]. repeat constructor. Qed.

Lemma StabilizationSystem_ok dt rk :
  finite_float dt -> rocket_ok rk -> rocket_ok (StabilizationSystem dt rk).
Proof.
  intros Fdt [Hlen Hall]. rewrite StabilizationSystem_eq by exact Hlen.
  unfold rocket_ok, angles in *. cbn [pitch roll yaw canard_rotations] in *.
  split; [rewrite length_map; exact Hlen|].
  apply Forall_app in Hall. destruct Hall as [Ho Hc].
  apply Forall_app. split; [exact Ho|].
  apply Forall_map. eapply Forall_impl; [exact Hc|].
  intros c. apply canard_step_below, Fdt.
Qed.

Lemma SetOrientationFromSensors_ok atan2f dt icm rk :
  finite_preserving atan2f -> sample_ok (getAGMT icm) ->
  rocket_ok rk -> rocket_ok (SetOrientationFromSensors atan2f dt icm rk).
Proof.
  intros Hat (_ & FaY & FaZ & FmX & FmY & _) [Hlen Hall].
  rewrite SetOrientationFromSensors_eq. destruct (dataReady icm); [|split; assumption].
  unfold rocket_ok, angles in *. cbn [pitch roll yaw canard_rotations] in *.
  split; [exact Hlen|].
  apply Forall_app in Hall. destruct Hall as [_ Hc].
  apply Forall_app. split; [|exact Hc].
  unfold roll_formula, yaw_formula.
  repeat constructor; apply fixRadian_below, Hat; assumption.
Qed.

Lemma loop_rocket atan2f fmt t s :
  rocket (fst (loop atan2f fmt t s))
  = StabilizationSystem (delta_time (millis t) (last_tick s))
      (SetOrientationFromSensors atan2f (delta_time (millis t) (last_tick s))
         (ICM t) (rocket s)).
Proof. reflexivity. Qed.

Lemma loop_ok atan2f fmt t s :
  finite_preserving atan2f -> tick_ok t ->
  rocket_ok (rocket s) -> rocket_ok (rocket (fst (loop atan2f fmt t s))).
Proof.
  intros Hat Ht Hs. rewrite loop_rocket.
  apply StabilizationSystem_ok; [apply delta_time_finite|].
  apply SetOrientationFromSensors_ok; assumption.
Qed.

(** *** Runs *)

Lemma run_from_snoc atan2f fmt s ticks t :
  run_from atan2f fmt s (ticks ++ [t])
  = (fst (loop atan2f fmt t (fst (run_from atan2f fmt s ticks))),
     snd (run_from atan2f fmt s ticks)
       ++ snd (loop atan2f fmt t (fst (run_from atan2f fmt s ticks)))).
Proof.
  unfold run_from. rewrite foldl_app. cbn [foldl].
  destruct (foldl _ (s, []) ticks) as [s' out]. cbn [fst snd].
  destruct (loop atan2f fmt t s') as [s'' o]. reflexivity.
Qed.

Lemma run_from_app atan2f fmt s ticks ticks' :
  fst (run_from atan2f fmt s (ticks ++ ticks'))
  = fst (run_from atan2f fmt (fst (run_from atan2f fmt s ticks)) ticks').
Proof.
  induction ticks' as [|t ticks' IH] using rev_ind.
  - rewrite app_nil_r. reflexivity.
  - rewrite app_assoc, !run_from_snoc. cbn [fst]. rewrite IH. reflexivity.
Qed.

Lemma run_from_ok atan2f fmt s ticks :
  finite_preserving atan2f -> Forall tick_ok ticks ->
  rocket_ok (rocket s) ->
  rocket_ok (rocket (fst (run_from atan2f fmt s ticks))).
Proof.
  intros Hat Hticks Hs. induction ticks as [|t ticks IH] using rev_ind.
  - exact Hs.
  - apply Forall_app in Hticks. destruct Hticks as [Hticks Ht].
    rewrite run_from_snoc. cbn [fst].
    apply loop_ok; [exact Hat | | apply IH, Hticks].
    inversion Ht; assumption.
Qed.

(** The canard angles never depend on the sensor: they stay within range on
    every run. *)
Lemma canards_ok_run atan2f fmt s ticks :
  length (canard_rotations (rocket s)) = 4%nat ->
  Forall (nonneg_below PI2) (canard_rotations (rocket s)) ->
  length (canard_rotations (rocket (fst (run_from atan2f fmt s ticks)))) = 4%nat
  /\ Forall (nonneg_below PI2)
       (canard_rotations (rocket (fst (run_from atan2f fmt s ticks)))).
Proof.
  intros Hlen Hall. induction ticks as [|t ticks IH] using rev_ind.
  - split; assumption.
  - destruct IH as [IHlen IHall]. rewrite run_from_snoc. cbn [fst].
    rewrite loop_rocket.
    set (s' := fst (run_from atan2f fmt s ticks)) in *.
    set (dt := delta_time (millis t) (last_tick s')).
    assert (Hc : canard_rotations (SetOrientationFromSensors atan2f dt (ICM t) (rocket s'))
                 = canard_rotations (rocket s')).
    { rewrite SetOrientationFromSensors_eq. destruct (dataReady (ICM t)); reflexivity. }
    rewrite StabilizationSystem_eq by (rewrite Hc; exact IHlen).
    cbn [canard_rotations]. rewrite Hc, length_map. split; [exact IHlen|].
    apply Forall_map. eapply Forall_impl; [exact IHall|].
    intros c. apply canard_step_below, delta_time_finite.
Qed.

(* ================================================================= *)
(** ** The float-array serializer *)

Lemma snprintf_f_length fmt off n v :
  (length (snd (snprintf_f fmt off n v)) <= n)%nat.
Proof.
  unfold snprintf_f. cbn [snd]. destruct n as [|n']; [reflexivity|].
  rewrite length_app, length_take. cbn [length]. lia.
Qed.

Lemma PackFloatsInStr_within fmt floats : forall off size W,
  Forall (fun a => (off <= a < off + size)%nat)
    (stored_offsets (PackFloatsInStr fmt off size floats W)).
Proof.
  induction floats as [|v rest IH]; intros off size W; cbn [PackFloatsInStr].
  - constructor.
  - destruct (Nat.leb_spec W size) as [Hle|Hgt]; [|constructor].
    unfold stored_offsets. cbn [map concat]. apply Forall_app. split.
    + apply Forall_seq. intros j Hj.
      pose proof (snprintf_f_length fmt off size v). cbn [fst snprintf_f] in *. lia.
    + eapply Forall_impl; [apply (IH (off + W)%nat (size - W)%nat W)|].
      cbn beta. intros a Ha. lia.
Qed.

Lemma PackFloatsInStr_length fmt floats : forall off size W,
  length (PackFloatsInStr fmt off size floats W) = packed_count size floats W.
Proof.
  induction floats as [|v rest IH]; intros off size W;
    cbn [PackFloatsInStr packed_count]; [reflexivity|].
  destruct (W <=? size)%nat; [|reflexivity].
  cbn [length]. rewrite IH. reflexivity.
Qed.

(** The loop packs the longest prefix for which the budget suffices. *)
Lemma packed_count_spec floats : forall size W,
  (packed_count size floats W <= length floats)%nat
  /\ (packed_count size floats W * W <= size)%nat
  /\ ((packed_count size floats W < length floats)%nat ->
      (size - packed_count size floats W * W < W)%nat).
Proof.
  induction floats as [|v rest IH]; intros size W; cbn [packed_count length].
  - repeat split; lia.
  - destruct (Nat.leb_spec W size) as [Hle|Hgt].
    + destruct (IH (size - W)%nat W) as (H1 & H2 & H3). repeat split; lia.
    + repeat split; lia.
Qed.

(** Slot [i] starts [i * W] bytes after the first. *)
Lemma PackFloatsInStr_slots fmt floats : forall off size W,
  map fst (PackFloatsInStr fmt off size floats W)
  = map (fun i => (off + i * W)%nat) (seq 0 (packed_count size floats W)).
Proof.
  induction floats as [|v rest IH]; intros off size W;
    cbn [PackFloatsInStr packed_count]; [reflexivity|].
  destruct (W <=? size)%nat; [|reflexivity].
  cbn [map seq fst snprintf_f]. f_equal; [lia|].
  rewrite IH, <- seq_shift, map_map. apply map_ext. intros i. lia.
Qed.

Lemma store_blocks_cons b bs buf :
  store_blocks (b :: bs) buf = store_blocks bs (list_inserts (fst b) (snd b) buf).
Proof. reflexivity. Qed.

Lemma list_inserts_over {A} (j : nat) (c : A) (K X : list A) :
  K <> [] -> list_inserts j K (<[j := c]> X) = list_inserts j K X.
Proof.
  destruct K as [|y K']; [congruence|]. intros _. cbn [list_inserts].
  rewrite <- list_insert_inserts_lt by lia.
  apply list_insert_insert_eq.
Qed.

(** When every text fills its slot exactly and the budget covers all slots
    and the terminator, the buffer receives the concatenated texts followed
    by one terminator. *)
Lemma PackFloatsInStr_exact fmt W v vs : forall off size buf,
  Forall (fun x => length (fmt x) = W) (v :: vs) ->
  (length (v :: vs) * W + 1 <= size)%nat ->
  store_blocks (PackFloatsInStr fmt off size (v :: vs) W) buf
  = list_inserts off (concat (map fmt (v :: vs)) ++ [NUL]) buf.
Proof.
  revert v. induction vs as [|v' vs IH]; intros v off size buf Hall Hsize.
  - cbn [length] in Hsize. apply Forall_cons in Hall. destruct Hall as [Hv _].
    cbn [PackFloatsInStr]. destruct (Nat.leb_spec W size); [|lia].
    rewrite store_blocks_cons. cbn [PackFloatsInStr store_blocks foldl].
    cbn [fst snd snprintf_f map concat]. rewrite app_nil_r.
    destruct size as [|n']; [lia|]. rewrite take_ge by lia. reflexivity.
  - apply Forall_cons in Hall. destruct Hall as [Hv Hall].
    cbn [length] in Hsize.
    change (PackFloatsInStr fmt off size (v :: v' :: vs) W)
      with (if (W <=? size)%nat
            then snprintf_f fmt off size v
                   :: PackFloatsInStr fmt (off + W) (size - W) (v' :: vs) W
            else []).
    destruct (Nat.leb_spec W size); [|lia].
    rewrite store_blocks_cons, IH by (cbn [length]; assumption || lia).
    cbn [fst snd snprintf_f].
    destruct size as [|n']; [lia|]. rewrite take_ge by lia.
    change (concat (map fmt (v :: v' :: vs)))
      with (fmt v ++ concat (map fmt (v' :: vs))).
    rewrite <- app_assoc.
    rewrite (list_inserts_app_l (fmt v) [NUL] buf off).
    rewrite (list_inserts_app_l (fmt v) _ buf off).
    rewrite Hv. cbn [list_inserts]. rewrite (Nat.add_comm off W).
    apply list_inserts_over. destruct (concat _); discriminate.
Qed.

Lemma c_str_app_NUL t rest :
  Forall (fun c => c <> NUL) t -> c_str (t ++ NUL :: rest) = t.
Proof.
  induction 1 as [|c t Hc _ IH]; cbn [c_str app].
  - reflexivity.
  - destruct (Ascii.eqb_spec c NUL) as [E|_]; [contradiction|]. rewrite IH. reflexivity.
Qed.

(** The telemetry line, when every angle is printed on exactly eight
    characters. *)
Lemma SendDataToSerial_eq fmt rk :
  Forall (fun v => length (fmt v) = 8%nat /\ Forall (fun c => c <> NUL) (fmt v))
    (float_data_arr rk) ->
  SendDataToSerial fmt rk = concat (map fmt (float_data_arr rk)) ++ CRLF.
Proof.
  intros Hall. unfold SendDataToSerial, Serial_println. f_equal.
  assert (Hlen : Forall (fun x => length (fmt x) = FLOAT_CHARS) (float_data_arr rk))
    by (eapply Forall_impl; [exact Hall | intros v [H _]; exact H]).
  assert (Hnul : Forall (fun c => c <> NUL) (concat (map fmt (float_data_arr rk)))).
  { apply Forall_concat, Forall_map. eapply Forall_impl; [exact Hall|].
    intros v [_ H]; exact H. }
  assert (Hcat : length (concat (map fmt (float_data_arr rk))) = 56%nat).
  { unfold float_data_arr in *. cbn [map concat]. rewrite !length_app.
    repeat match goal with
           | H : Forall _ (_ :: _) |- _ => apply Forall_cons in H; destruct H as [? H]
           end.
    unfold FLOAT_CHARS in *. cbn [length]. lia. }
  unfold float_data_arr in Hlen |- *.
  rewrite PackFloatsInStr_exact; [|exact Hlen | cbn; lia].
  fold (float_data_arr rk) in *.
  rewrite <- (app_nil_r (replicate DATA_STR_SIZE NUL)).
  rewrite list_inserts_0_r
    by (rewrite length_app, length_replicate, Hcat; reflexivity).
  rewrite app_nil_r. apply c_str_app_NUL, Hnul.
Qed.

Lemma store_blocks_length stores : forall buf,
  length (store_blocks stores buf) = length buf.
Proof.
  induction stores as [|b bs IH]; intros buf; [reflexivity|].
  rewrite store_blocks_cons, IH. apply length_inserts.
Qed.

Lemma PackFloatsInStr_none fmt off size floats W :
  packed_count size floats W = 0%nat -> PackFloatsInStr fmt off size floats W = [].
Proof.
  intros H. apply length_zero_iff_nil. rewrite PackFloatsInStr_length. exact H.
Qed.

Lemma PackFloatsInStr_offsets_ge fmt floats : forall off size W,
  Forall (fun st => (off <= fst st)%nat) (PackFloatsInStr fmt off size floats W).
Proof.
  induction floats as [|v rest IH]; intros off size W; cbn [PackFloatsInStr].
  - constructor.
  - destruct (W <=? size)%nat; [|constructor]. constructor; [cbn; lia|].
    eapply Forall_impl; [apply (IH (off + W)%nat (size - W)%nat W)|].
    cbn beta. intros st Hst. lia.
Qed.

Lemma store_blocks_frame_below a stores : forall mem,
  Forall (fun st => (a < fst st)%nat) stores ->
  store_blocks stores mem !! a = mem !! a.
Proof.
  induction stores as [|b bs IH]; intros mem Hall; [reflexivity|].
  apply Forall_cons in Hall. destruct Hall as [Hb Hbs].
  rewrite store_blocks_cons, IH by assumption.
  apply list_lookup_inserts_lt. exact Hb.
Qed.

Lemma PackFloatsInStr_slot fmt floats : forall off size W buf i v j,
  (off + size <= length buf)%nat ->
  floats !! i = Some v -> (i < packed_count size floats W)%nat ->
  (j < W)%nat ->
  (j < length (snd (snprintf_f fmt 0 (size - i * W) v)))%nat ->
  store_blocks (PackFloatsInStr fmt off size floats W) buf !! (off + i * W + j)%nat
  = snd (snprintf_f fmt 0 (size - i * W) v) !! j.
Proof.
  induction floats as [|v0 rest IH]; intros off size W buf i v j Hbuf Hv Hi Hj Hlen;
    [discriminate|].
  cbn [PackFloatsInStr packed_count] in *.
  destruct (Nat.leb_spec W size) as [Hle|Hgt]; [|lia].
  rewrite store_blocks_cons. cbn [fst].
  destruct i as [|i'].
  - cbn in Hv. injection Hv as ->.
    cbn [Nat.mul] in *. rewrite Nat.sub_0_r in *. rewrite Nat.add_0_r.
    rewrite store_blocks_frame_below.
    + pose proof (snprintf_f_length fmt off size v) as Hb.
      change (snd (snprintf_f fmt off size v)) with (snd (snprintf_f fmt 0 size v)) in *.
      change (fst (snprintf_f fmt off size v)) with off.
      rewrite list_lookup_inserts by lia.
      f_equal. lia.
    + eapply Forall_impl;
        [apply (PackFloatsInStr_offsets_ge fmt rest (off + W)%nat (size - W)%nat W)|].
      cbn beta. intros st Hst. lia.
  - cbn in Hv.
    replace (off + S i' * W + j)%nat with (off + W + i' * W + j)%nat by lia.
    replace (size - S i' * W)%nat with (size - W - i' * W)%nat in * by lia.
    apply IH; try assumption; try lia.
    rewrite length_inserts. lia.
Qed.

Lemma snprintf_f_eq fmt off n v :
  snprintf_f fmt off n v
  = (off, if (n =? 0)%nat then [] else take (n - 1) (fmt v) ++ [NUL]).
Proof.
  destruct n as [|n']; cbn; [reflexivity|]. rewrite Nat.sub_0_r. reflexivity.
Qed.

Lemma PackFloatsInStr_block fmt floats : forall off size W i v,
  floats !! i = Some v -> (i < packed_count size floats W)%nat ->
  PackFloatsInStr fmt off size floats W !! i
  = Some (snprintf_f fmt (off + i * W) (size - i * W) v).
Proof.
  induction floats as [|v0 rest IH]; intros off size W i v Hv Hi; [discriminate|].
  cbn [PackFloatsInStr packed_count] in *.
  destruct (Nat.leb_spec W size) as [Hle|Hgt]; [|lia].
  destruct i as [|i'].
  - cbn in Hv. injection Hv as ->. cbn [Nat.mul lookup list_lookup].
    rewrite Nat.add_0_r, Nat.sub_0_r. reflexivity.
  - cbn in Hv. cbn [lookup list_lookup].
    change (rest !! i' = Some v) in Hv.
    etransitivity; [apply (IH (off + W)%nat (size - W)%nat W i' v Hv); lia|].
    do 2 f_equal; lia.
Qed.


(* ================================================================= *)
(** ** The reference instances meet what the program needs of them *)

Lemma atan2f_axes_finite : finite_preserving atan2f_axes.
Proof.
  intros y x [Fy Vy] [Fx Vx].
  destruct y as [sy|sy| |sy my ey], x as [[]|sx| |[] mx ex]; try discriminate;
    destruct sy; split; vm_compute; reflexivity.
Qed.

Lemma digit_char_not_NUL d : digit_char d <> NUL.
Proof.
  unfold digit_char, NUL. intros H.
  pose proof (Z.mod_pos_bound d 10 ltac:(lia)) as Hd.
  apply (f_equal nat_of_ascii) in H.
  rewrite nat_ascii_embedding in H by lia.
  change (nat_of_ascii zero) with 0%nat in H. lia.
Qed.

Lemma show_Z_small k : 0 <= k < 10 -> show_Z k = [digit_char k].
Proof.
  intros Hk. unfold show_Z. cbn [decimal_digits].
  destruct (Z.ltb_spec k 10); [reflexivity | lia].
Qed.

Lemma round_half_even_bounds num den :
  num / den <= round_half_even num den <= num / den + 1.
Proof.
  unfold round_half_even. destruct (2 * (num mod den) ?= den); try lia.
  destruct (Z.even (num / den)); lia.
Qed.

Lemma millionths_below_PI2 r :
  nonneg_below PI2 r -> 0 <= millionths r < 10 ^ 7.
Proof.
  destruct r as [s|s| |s m e]; cbn [nonneg_below]; try contradiction.
  - intros _. cbn. lia.
  - intros H. apply below_PI2_inv in H. destruct H as (-> & Hm & _ & He).
    cbn [millionths]. destruct (Z.leb_spec 0 e); [lia|].
    pose proof (round_half_even_bounds (Z.pos m * 10 ^ 6) (2 ^ (- e))) as Hr.
    pose proof (pow2_pos (- e) ltac:(lia)) as Hp.
    assert (2 ^ 21 <= 2 ^ (- e)) by (apply pow2_le; lia).
    assert (0 <= Z.pos m * 10 ^ 6 / 2 ^ (- e)) by (apply Z.div_pos; lia).
    assert (Z.pos m * 10 ^ 6 / 2 ^ (- e) < 8 * 10 ^ 6).
    { apply Z.div_lt_upper_bound; [lia|]. nia. }
    lia.
Qed.

(** An angle of the state prints on exactly eight characters, none of them
    the terminator. *)
Lemma format_f_width r :
  nonneg_below PI2 r ->
  length (format_f r) = 8%nat /\ Forall (fun c => c <> NUL) (format_f r).
Proof.
  intros Hr. pose proof (millionths_below_PI2 r Hr) as Hn.
  assert (Hk : 0 <= millionths r / 10 ^ 6 < 10).
  { split; [apply Z.div_pos; lia|]. apply Z.div_lt_upper_bound; lia. }
  assert (Hs : match r with
               | S754_zero s | S754_finite s _ _ => s = false
               | _ => False
               end).
  { destruct r as [s|s| |s m e]; cbn [nonneg_below] in Hr; try contradiction;
      [exact Hr | apply Hr]. }
  assert (E : format_f r
              = show_Z (millionths r / 10 ^ 6) ++ ["."%char]
                ++ map (fun k => digit_char (millionths r mod 10 ^ 6 / 10 ^ k))
                     [5; 4; 3; 2; 1; 0]).
  { destruct r as [s|s| |s m e]; try contradiction; subst s; reflexivity. }
  rewrite E, show_Z_small by exact Hk. split; [reflexivity|].
  cbn [app map]. repeat constructor; try apply digit_char_not_NUL.
  discriminate.
Qed.

(* ================================================================= *)
(** ** The estimator: what is stored *)

Lemma StabilizationSystem_orientation dt rk :
  GetOrientation (StabilizationSystem dt rk) = GetOrientation rk.
Proof. reflexivity. Qed.

Lemma loop_orientation_idle atan2f fmt t s :
  dataReady (ICM t) = false ->
  GetOrientation (rocket (fst (loop atan2f fmt t s))) = GetOrientation (rocket s).
Proof.
  intros Hidle. rewrite loop_rocket, StabilizationSystem_orientation.
  rewrite SetOrientationFromSensors_eq, Hidle. reflexivity.
Qed.

Lemma loop_pitch_roll atan2f fmt t s :
  pitch (rocket s) = roll (rocket s) ->
  pitch (rocket (fst (loop atan2f fmt t s)))
  = roll (rocket (fst (loop atan2f fmt t s))).
Proof.
  intros H. rewrite loop_rocket.
  assert (Hp : forall dt rk, pitch (StabilizationSystem dt rk) = pitch rk)
    by reflexivity.
  assert (Hr : forall dt rk, roll (StabilizationSystem dt rk) = roll rk)
    by reflexivity.
  rewrite Hp, Hr, SetOrientationFromSensors_eq.
  destruct (dataReady (ICM t)); [reflexivity | exact H].
Qed.

(** C1, evaluated on the pad: with one g along the x axis and fresh data,
    the quoted pitch equation gives a quarter turn, yet the pitch field
    receives the normalized roll value, which is zero; roll and yaw are
    stored as the equations say. *)
Theorem SetOrientationFromSensors_pitch_divergence :
  let rk := SetOrientationFromSensors atan2f_axes f0 ready_sensor Rocket_init in
  pitch rk = fixRadian (roll_formula atan2f_axes pad_sample)
  /\ pitch rk = f0
  /\ fixRadian (pitch_formula atan2f_axes pad_sample)
     = S754_finite false 13176795 (-23)
  /\ pitch rk <> fixRadian (pitch_formula atan2f_axes pad_sample)
  /\ roll rk = fixRadian (roll_formula atan2f_axes pad_sample)
  /\ yaw rk = fixRadian (yaw_formula atan2f_axes pad_sample).
Proof.
  vm_compute. repeat split; try reflexivity. discriminate.
Qed.

(** C2: in every state the program reaches, whatever the clock and the
    sensor deliver, [Rocket::pitch] equals [Rocket::roll]: both start at
    zero, and a sensor update stores the normalized [atan2f(accY, accZ)] in
    both. *)
Theorem pitch_equals_roll atan2f fmt :
  (forall now ticks,
     pitch (rocket (fst (run atan2f fmt now ticks)))
     = roll (rocket (fst (run atan2f fmt now ticks))))
  /\ (forall dt sample rk,
        pitch (SetOrientationFromSensors atan2f dt (mkSensor true sample) rk)
        = fixRadian (atan2f (accY sample) (accZ sample))
        /\ roll (SetOrientationFromSensors atan2f dt (mkSensor true sample) rk)
           = fixRadian (atan2f (accY sample) (accZ sample)))
  /\ pitch Rocket_init = f0 /\ roll Rocket_init = f0.
Proof.
  split; [|split; [intros; split; reflexivity | split; reflexivity]].
  intros now ticks. unfold run.
  induction ticks as [|t ticks IH] using rev_ind.
  - reflexivity.
  - rewrite run_from_snoc. cbn [fst]. apply loop_pitch_roll, IH.
Qed.

(* ================================================================= *)
(** ** The normalizers: range, exactness, idempotence *)

Lemma ulps_fabsf t : ulps (fabsf t) = Z.abs (ulps t).
Proof.
  destruct t as [s|s| |s m e]; try reflexivity.
  cbn [fabsf SFabs ulps]. destruct s; cbn [cond_Zopp]; lia.
Qed.

Lemma fmodf_fabsf_ulps t my ey :
  finite_float t ->
  valid_binary prec emax (S754_finite false my ey) = true ->
  ulps (fmodf (fabsf t) (S754_finite false my ey))
  = Z.abs (ulps t) mod ulps (S754_finite false my ey).
Proof.
  intros [Ft Vt] Vy. rewrite <- ulps_fabsf.
  destruct t as [s|s| |s m e]; try discriminate.
  - cbn [fabsf SFabs fmodf]. cbn [ulps]. rewrite Z.mod_0_l; [reflexivity|].
    cbn [cond_Zopp]. apply valid_finite_inv in Vy.
    pose proof (pow2_pos (ey + 149) ltac:(lia)). lia.
  - cbn [fabsf SFabs]. apply fmodf_ulps; assumption.
Qed.

Lemma normalize_ulps mh eh mf ef x :
  valid_binary prec emax (S754_finite false mh eh) = true ->
  valid_binary prec emax (S754_finite false mf ef) = true ->
  finite_float x ->
  ulps (normalize_spec (S754_finite false mh eh) (S754_finite false mf ef) x)
  = Z.abs (ulps (if flt x f0 then fadd x (S754_finite false mh eh) else x))
    mod ulps (S754_finite false mf ef).
Proof.
  intros Vh Vf Fx. unfold normalize_spec.
  apply fmodf_fabsf_ulps; [|exact Vf].
  pose proof (flt_zero_sign x Fx) as Hs.
  destruct (flt x f0); [|exact Fx].
  destruct Hs as (m & e & ->).
  apply (fadd_opposite_finite true m e mh eh); [apply Fx | exact Vh].
Qed.

(** C3, where the claim fails: for [x = -5.0f] the result [1.8584073] is
    congruent modulo [PI2] neither to [x], nor to [x] shifted by half a turn
    either way. *)
Lemma fixRadian_not_congruent :
  let x := float_of_Z (-5) in
  let r := fixRadian x in
  finite_float x
  /\ r = S754_finite false 15589450 (-23)
  /\ ~ congruent_up_to_shift PI PI2 x r
  /\ ~ (exists k : Z, ulps r = ulps x + k * ulps PI2)
  /\ ~ (exists k : Z, ulps r = ulps x - ulps PI + k * ulps PI2).
Proof.
  assert (Hmod : forall a b M : Z,
            (a - b) mod M <> 0 -> ~ (exists k : Z, a = b + k * M)).
  { intros a b M Hne [k Hk]. apply Hne.
    replace (a - b) with (k * M) by lia. apply Z.mod_mul.
    intros ->. apply Hne. rewrite Z.mod_0_r. lia. }
  cbv zeta. split; [split; reflexivity|]. split; [vm_compute; reflexivity|].
  split; [|split].
  - unfold congruent_up_to_shift.
    replace (flt (float_of_Z (-5)) f0) with true by reflexivity.
    apply Hmod. vm_compute. discriminate.
  - apply Hmod. vm_compute. discriminate.
  - apply Hmod. vm_compute. discriminate.
Qed.

Lemma fixRadian_half_turn x :
  finite_float x -> flt x f0 = true -> fle (fneg PI) x = true ->
  fixRadian x = fadd x PI.
Proof.
  intros Fx Hneg Hle. pose proof (flt_zero_sign x Fx) as Hs.
  rewrite Hneg in Hs. destruct Hs as (m & e & ->).
  pose proof (fadd_half_turn m e (proj2 Fx) Hle) as Hb.
  unfold fixRadian. rewrite Hneg.
  destruct (nonneg_below_fabsf _ _ Hb) as [_ ->].
  rewrite PI2_eq in *. apply fmodf_small; [exact Hb | reflexivity].
Qed.

Lemma ulps_abs_nonneg x : flt x f0 = false -> Z.abs (ulps x) = ulps x.
Proof.
  destruct x as [s|s| |[] m e]; intros H; try reflexivity.
  - discriminate H.
  - cbn [ulps cond_Zopp]. lia.
Qed.

Lemma remainder_congruent a r M : r = a mod M -> exists k : Z, a - r = k * M.
Proof.
  intros ->. exists (a / M).
  destruct (Z.eq_dec M 0) as [->|HM].
  - rewrite Z.mod_0_r. lia.
  - pose proof (Z.div_mod a M HM). lia.
Qed.

(** C3, amended: for every finite [x], [fixRadian] computes
    [fmodf(fabsf(x < 0 ? x + PI : x), PI2)]; the result is a valid float
    with [0 <= r < PI2] (at most [6.2831850], so below the real [2 pi] too);
    it is exactly the remainder modulo [PI2] of [|x|] when [x >= 0], hence
    congruent to [x], and of [|x + PI|] (the float sum) when [x < 0]; for
    [-PI <= x < 0] it is the float sum [x + PI], the half-turn shift.
    [fixDegree] has the same shape with [180] and [360]. *)
Theorem normalizers_range x :
  finite_float x ->
  (fixRadian x = fmodf (fabsf (if flt x f0 then fadd x PI else x)) PI2
   /\ valid_binary prec emax (fixRadian x) = true
   /\ in_turn PI2 (fixRadian x) = true
   /\ 10 ^ 7 * ulps (fixRadian x) < 62831853 * 2 ^ 149
   /\ ulps (fixRadian x)
      = Z.abs (ulps (if flt x f0 then fadd x PI else x)) mod ulps PI2
   /\ (flt x f0 = false -> congruent PI2 x (fixRadian x))
   /\ (flt x f0 = true -> fle (fneg PI) x = true -> fixRadian x = fadd x PI))
  /\ (fixDegree x = fmodf (fabsf (if flt x f0 then fadd x f180 else x)) f360
      /\ valid_binary prec emax (fixDegree x) = true
      /\ in_turn f360 (fixDegree x) = true
      /\ ulps (fixDegree x)
         = Z.abs (ulps (if flt x f0 then fadd x f180 else x)) mod ulps f360).
Proof.
  intros Fx. split.
  - assert (Hu : ulps (fixRadian x)
                 = Z.abs (ulps (if flt x f0 then fadd x PI else x)) mod ulps PI2).
    { rewrite fixRadian_normalize, PI_eq, PI2_eq.
      apply normalize_ulps; [reflexivity | reflexivity | exact Fx]. }
    split; [reflexivity|].
    destruct (fixRadian_angle_ok x Fx) as [Hv Hr].
    split; [exact Hv|]. split; [exact Hr|].
    split; [apply below_PI2_decimal, fixRadian_below, Fx|].
    split; [exact Hu|]. split.
    + intros Hpos. rewrite Hpos in Hu. apply remainder_congruent.
      rewrite Hu, (ulps_abs_nonneg x Hpos). reflexivity.
    + apply fixRadian_half_turn, Fx.
  - split; [reflexivity|].
    destruct (nonneg_below_in_turn f360 (fixDegree x) (fixDegree_below x Fx))
      as [Hv Hr]; [reflexivity | reflexivity |].
    split; [exact Hv|]. split; [exact Hr|].
    rewrite fixDegree_normalize, f180_eq, f360_eq.
    apply normalize_ulps; [reflexivity | reflexivity | exact Fx].
Qed.

Lemma normalizers_range_witness :
  finite_float (float_of_Z (-5))
  /\ in_turn PI2 (fixRadian (float_of_Z (-5))) = true
  /\ in_turn f360 (fixDegree (float_of_Z (-5))) = true.
Proof.
  assert (F : finite_float (float_of_Z (-5))) by (split; reflexivity).
  split; [exact F|].
  destruct (normalizers_range (float_of_Z (-5)) F)
    as [(_ & _ & Hr & _) (_ & _ & Hd & _)].
  split; [exact Hr | exact Hd].
Defined.

Lemma feq_refl_finite r : nonneg_below PI2 r -> feq r r = true.
Proof.
  destruct r as [s|s| |s m e]; cbn [nonneg_below]; try contradiction.
  - reflexivity.
  - intros (-> & _). unfold feq, SFeqb, SFcompare.
    rewrite Z.compare_refl. fold (Pos.compare m m).
    rewrite Pos.compare_refl. reflexivity.
Qed.

Lemma feq_refl_below y r : nonneg_below y r -> feq r r = true.
Proof.
  destruct r as [s|s| |s m e]; cbn [nonneg_below]; try contradiction.
  - reflexivity.
  - intros (-> & _). unfold feq, SFeqb, SFcompare.
    rewrite Z.compare_refl. fold (Pos.compare m m).
    rewrite Pos.compare_refl. reflexivity.
Qed.

(** C9, as amended: the radian normalizer is idempotent on the finite
    floats: for every finite [x], a second application returns the same float
    as the first, and the two results compare equal with the program's [==]. *)
Theorem fixRadian_idempotent x :
  finite_float x ->
  fixRadian (fixRadian x) = fixRadian x
  /\ feq (fixRadian (fixRadian x)) (fixRadian x) = true.
Proof.
  intros Fx. pose proof (fixRadian_below x Fx) as Hb.
  rewrite (fixRadian_fixpoint _ Hb). split; [reflexivity|].
  apply (feq_refl_below PI2), Hb.
Qed.

Lemma fixRadian_idempotent_witness :
  finite_float (float_of_Z (-5))
  /\ fixRadian (fixRadian (float_of_Z (-5))) = fixRadian (float_of_Z (-5))
  /\ feq (fixRadian (fixRadian (float_of_Z (-5)))) (fixRadian (float_of_Z (-5)))
     = true.
Proof.
  assert (F : finite_float (float_of_Z (-5))) by (split; reflexivity).
  split; [exact F|].
  exact (fixRadian_idempotent (float_of_Z (-5)) F).
Defined.

(** C9, as stated, fails off the finite floats: for an infinity of either
    sign and for a NaN both [fixRadian(x)] and [fixRadian(fixRadian(x))] are
    NaN, and the program's [==] is false of them. *)
Lemma fixRadian_not_idempotent_at_infinity :
  is_finite (S754_infinity false) = false
  /\ fixRadian (S754_infinity false) = S754_nan
  /\ fixRadian (fixRadian (S754_infinity false)) = S754_nan
  /\ feq (fixRadian (fixRadian (S754_infinity false)))
         (fixRadian (S754_infinity false)) = false
  /\ feq (fixRadian (fixRadian (S754_infinity true)))
         (fixRadian (S754_infinity true)) = false
  /\ feq (fixRadian (fixRadian S754_nan)) (fixRadian S754_nan) = false.
Proof. vm_compute. repeat split; reflexivity. Qed.

(* ================================================================= *)
(** ** The stabilization law along a run *)

Lemma SetOrientationFromSensors_canards atan2f dt icm rk :
  canard_rotations (SetOrientationFromSensors atan2f dt icm rk)
  = canard_rotations rk.
Proof.
  rewrite SetOrientationFromSensors_eq. destruct (dataReady icm); reflexivity.
Qed.

Lemma run_canards_ok atan2f fmt now ticks :
  length (canard_rotations (rocket (fst (run atan2f fmt now ticks)))) = 4%nat
  /\ Forall (nonneg_below PI2)
       (canard_rotations (rocket (fst (run atan2f fmt now ticks)))).
Proof.
  apply canards_ok_run; [reflexivity | repeat constructor].
Qed.

Lemma loop_canards atan2f fmt t s :
  length (canard_rotations (rocket s)) = 4%nat ->
  canard_rotations (rocket (fst (loop atan2f fmt t s)))
  = map (canard_step (delta_time (millis t) (last_tick s)))
        (canard_rotations (rocket s)).
Proof.
  intros Hlen. rewrite loop_rocket, StabilizationSystem_eq
    by (rewrite SetOrientationFromSensors_canards; exact Hlen).
  cbn [canard_rotations]. rewrite SetOrientationFromSensors_canards. reflexivity.
Qed.

(** C4: on every tick, whatever the sensor says, each of the four canard
    angles becomes [fixRadian(angle + 24.0f * DEG2RAD * deltaTime)]; from
    [[0,0,0,0]] and [deltaTime = 1.0] each becomes the float nearest to 24
    degrees in radians, [0.41887903]; and after every tick each canard angle
    is a valid float with [0 <= angle < PI2]. *)
Theorem stabilization_law atan2f fmt :
  (forall now ticks t,
     let s := fst (run atan2f fmt now ticks) in
     let deltaTime := delta_time (millis t) (last_tick s) in
     canard_rotations (rocket (fst (loop atan2f fmt t s)))
     = map (fun c => fixRadian (fadd c (fmul (fmul f24 DEG2RAD) deltaTime)))
           (canard_rotations (rocket s)))
  /\ (delta_time 1000 0 = float_of_Z 1
      /\ canard_rotations (StabilizationSystem (float_of_Z 1) Rocket_init)
         = replicate 4 (S754_finite false 14055248 (-25))
      /\ S754_finite false 14055248 (-25) = float_of_decimal 41887902047863906 17
      /\ 418879 * 2 ^ 149 < 10 ^ 6 * ulps (S754_finite false 14055248 (-25))
         < 418880 * 2 ^ 149)
  /\ (forall now ticks,
        length (canard_rotations (rocket (fst (run atan2f fmt now ticks)))) = 4%nat
        /\ Forall angle_ok
             (canard_rotations (rocket (fst (run atan2f fmt now ticks))))).
Proof.
  split; [|split].
  - intros now ticks t s deltaTime.
    apply loop_canards, run_canards_ok.
  - split; [vm_compute; reflexivity|]. split; [vm_compute; reflexivity|].
    split; [vm_compute; reflexivity|]. vm_compute. split; reflexivity.
  - intros now ticks. destruct (run_canards_ok atan2f fmt now ticks) as [Hlen Hall].
    split; [exact Hlen|]. eapply Forall_impl; [exact Hall|].
    intros c. apply nonneg_below_angle_ok.
Qed.

(* ================================================================= *)
(** ** Ticks without fresh sensor data *)

Lemma run_from_idle_orientation atan2f fmt s ticks :
  Forall (fun t => dataReady (ICM t) = false) ticks ->
  GetOrientation (rocket (fst (run_from atan2f fmt s ticks)))
  = GetOrientation (rocket s).
Proof.
  intros Hidle. induction ticks as [|t ticks IH] using rev_ind.
  - reflexivity.
  - apply Forall_app in Hidle. destruct Hidle as [Hticks Ht].
    rewrite run_from_snoc. cbn [fst].
    rewrite loop_orientation_idle by (inversion Ht; assumption).
    apply IH, Hticks.
Qed.

(** C6: over any stretch of ticks on which [dataReady()] is false, pitch,
    roll and yaw keep the values they had before the stretch, at every tick
    of it, while each canard angle [c] becomes
    [fixRadian(c + 24.0f * DEG2RAD * deltaTime)] on each of these ticks.  In
    particular, after a tick with fresh data that sets pitch, roll and yaw to
    a quarter turn, five ticks without fresh data, one second apart, leave the
    three at a quarter turn although the reading they carry would set them to
    zero, and the four canard angles grow strictly from each tick to the
    next. *)
Theorem idle_ticks_keep_orientation :
  (forall atan2f fmt now before ticks,
     Forall (fun t => dataReady (ICM t) = false) ticks ->
     forall n,
       let s0 := fst (run atan2f fmt now before) in
       let s := fst (run atan2f fmt now (before ++ take n ticks)) in
       GetOrientation (rocket s) = GetOrientation (rocket s0)
       /\ forall t, ticks !! n = Some t ->
            let s' := fst (run atan2f fmt now (before ++ take (S n) ticks)) in
            let deltaTime := delta_time (millis t) (last_tick s) in
            GetOrientation (rocket s') = GetOrientation (rocket s0)
            /\ canard_rotations (rocket s')
               = map (fun c => fixRadian (fadd c (fmul (fmul f24 DEG2RAD) deltaTime)))
                     (canard_rotations (rocket s)))
  /\ (let quarter := S754_finite false 13176795 (-23) in
      let c0 := S754_finite false 14055248 (-26) in
      let c1 := S754_finite false 14055248 (-25) in
      let c2 := S754_finite false 14055248 (-24) in
      let c3 := S754_finite false 10541436 (-23) in
      let c4 := S754_finite false 14055248 (-23) in
      let c5 := S754_finite false 8784530 (-22) in
      length five_idle_ticks = 5%nat
      /\ Forall (fun t => dataReady (ICM t) = false) five_idle_ticks
      /\ map (fun n => (GetOrientation (rocket (idle_stretch n)),
                        canard_rotations (rocket (idle_stretch n))))
             [0; 1; 2; 3; 4; 5]%nat
         = map (fun c => ((quarter, quarter, quarter), replicate 4 c))
               [c0; c1; c2; c3; c4; c5]
      /\ map (fun t => GetOrientation
                         (SetOrientationFromSensors atan2f_axes f0
                            (mkSensor true (getAGMT (ICM t)))
                            (rocket (idle_stretch 0))))
             five_idle_ticks
         = replicate 5 (f0, f0, f0)
      /\ quarter <> f0
      /\ flt c0 c1 = true /\ flt c1 c2 = true /\ flt c2 c3 = true
      /\ flt c3 c4 = true /\ flt c4 c5 = true).
Proof.
  split.
  - intros atan2f fmt now before ticks Hidle n s0 s.
    assert (Hpre : forall k,
              GetOrientation
                (rocket (fst (run atan2f fmt now (before ++ take k ticks))))
              = GetOrientation (rocket s0)).
    { intros k. unfold run. rewrite run_from_app.
      apply run_from_idle_orientation, Forall_take, Hidle. }
    split; [apply Hpre|].
    intros t Ht s' deltaTime. split; [apply Hpre|].
    unfold s', s, deltaTime.
    rewrite (take_S_r _ _ _ Ht), app_assoc. unfold run at 1.
    rewrite run_from_snoc. cbn [fst].
    apply loop_canards, run_canards_ok.
  - cbv zeta.
    split; [reflexivity|]. split; [repeat constructor|].
    split; [vm_compute; reflexivity|]. split; [vm_compute; reflexivity|].
    split; [discriminate|]. vm_compute. repeat split; reflexivity.
Qed.

Lemma idle_ticks_keep_orientation_witness :
  Forall (fun t => dataReady (ICM t) = false) five_idle_ticks
  /\ GetOrientation
       (rocket (fst (run atan2f_axes format_f 0
                       ([mkTick 500 tilted_sensor] ++ take 5 five_idle_ticks))))
     = GetOrientation
         (rocket (fst (run atan2f_axes format_f 0 [mkTick 500 tilted_sensor]))).
Proof.
  assert (H : Forall (fun t => dataReady (ICM t) = false) five_idle_ticks)
    by (repeat constructor).
  split; [exact H|].
  exact (proj1 (proj1 idle_ticks_keep_orientation atan2f_axes format_f 0
                  [mkTick 500 tilted_sensor] five_idle_ticks H 5%nat)).
Defined.

(** The five idle ticks from the start, evaluated: the orientation stays at
    zero, and the canard angle grows from tick to tick. *)
Example five_idle_ticks_run :
  map (fun n =>
         let rk := rocket (fst (run atan2f_axes format_f 0 (take n five_idle_ticks))) in
         (GetOrientation rk, canard rk 0))
      [0; 1; 2; 3; 4; 5]%nat
  = [ ((f0, f0, f0), f0);
      ((f0, f0, f0), S754_finite false 14055248 (-25));
      ((f0, f0, f0), S754_finite false 14055248 (-24));
      ((f0, f0, f0), S754_finite false 10541436 (-23));
      ((f0, f0, f0), S754_finite false 14055248 (-23));
      ((f0, f0, f0), S754_finite false 8784530 (-22)) ].
Proof. vm_compute. reflexivity. Qed.

(* ================================================================= *)
(** ** Every stored angle is within one turn *)

Lemma SetCanardRotations_eq rad rk :
  length rad = 4%nat -> length (canard_rotations rk) = 4%nat ->
  SetCanardRotations rad rk
  = (map fixRadian rad,
     mkRocket (pitch rk) (roll rk) (yaw rk) (map fixRadian rad)).
Proof.
  destruct rk as [p r y cs].
  destruct rad as [|a0 [|a1 [|a2 [|a3 [|a4 rad]]]]]; try discriminate.
  destruct cs as [|c0 [|c1 [|c2 [|c3 [|c4 cs]]]]]; try discriminate.
  intros _ _. reflexivity.
Qed.

Lemma SetCanardRotations_ok rad rk :
  length rad = 4%nat -> Forall finite_float rad -> rocket_ok rk ->
  rocket_ok (snd (SetCanardRotations rad rk)).
Proof.
  intros Hlen Hfin [Hl Hall]. rewrite SetCanardRotations_eq by assumption.
  unfold rocket_ok, angles in *. cbn [snd pitch roll yaw canard_rotations] in *.
  split; [rewrite length_map; exact Hlen|].
  apply Forall_app in Hall. destruct Hall as [Ho _].
  apply Forall_app. split; [exact Ho|].
  apply Forall_map. eapply Forall_impl; [exact Hfin|].
  intros x. apply fixRadian_below.
Qed.

(** C7: in every state the program reaches, with finite sensor readings and
    an [atan2f] that is finite on finite arguments, each of the seven stored
    angles (pitch, roll, yaw and the four canard angles) is a valid float
    with [0 <= angle < PI2]; its exact value is below [6.2831853], hence
    below the real [2 pi] as well. *)
Theorem angles_within_one_turn atan2f fmt now ticks :
  finite_preserving atan2f -> Forall tick_ok ticks ->
  angles (rocket (fst (run atan2f fmt now ticks)))
  = [pitch (rocket (fst (run atan2f fmt now ticks)));
     roll (rocket (fst (run atan2f fmt now ticks)));
     yaw (rocket (fst (run atan2f fmt now ticks)))]
    ++ canard_rotations (rocket (fst (run atan2f fmt now ticks)))
  /\ length (canard_rotations (rocket (fst (run atan2f fmt now ticks)))) = 4%nat
  /\ Forall angle_ok (angles (rocket (fst (run atan2f fmt now ticks))))
  /\ Forall (fun r => 0 <= ulps r /\ 10 ^ 7 * ulps r < 62831853 * 2 ^ 149)
       (angles (rocket (fst (run atan2f fmt now ticks)))).
Proof.
  intros Hat Hticks. split; [reflexivity|].
  destruct (run_from_ok atan2f fmt (setup now) ticks Hat Hticks Rocket_init_ok)
    as [Hlen Hall].
  split; [exact Hlen|]. split.
  - eapply Forall_impl; [exact Hall|].
    intros c. apply nonneg_below_angle_ok.
  - eapply Forall_impl; [exact Hall|].
    intros c Hc. split; [|apply below_PI2_decimal, Hc].
    destruct (nonneg_below_fabsf _ _ Hc) as [Hpos _].
    rewrite <- (ulps_abs_nonneg c Hpos). lia.
Qed.

Lemma pad_ticks_ok :
  Forall tick_ok [mkTick 500 ready_sensor; mkTick 1500 idle_sensor].
Proof. repeat constructor. Qed.

Lemma angles_within_one_turn_witness :
  finite_preserving atan2f_axes
  /\ Forall tick_ok [mkTick 500 ready_sensor; mkTick 1500 idle_sensor]
  /\ Forall angle_ok
       (angles (rocket (fst (run atan2f_axes format_f 0
                               [mkTick 500 ready_sensor; mkTick 1500 idle_sensor])))).
Proof.
  split; [exact atan2f_axes_finite|]. split; [exact pad_ticks_ok|].
  exact (proj1 (proj2 (proj2 (angles_within_one_turn atan2f_axes format_f 0 _
                                atan2f_axes_finite pad_ticks_ok)))).
Defined.

(* ================================================================= *)
(** ** The serializer: memory safety and slots *)

Lemma PackFloatsInStr_blocks_within fmt floats : forall off size W,
  Forall (fun st => (fst st + length (snd st) <= off + size)%nat)
    (PackFloatsInStr fmt off size floats W).
Proof.
  induction floats as [|v rest IH]; intros off size W; cbn [PackFloatsInStr].
  - constructor.
  - destruct (Nat.leb_spec W size) as [Hle|Hgt]; [|constructor].
    constructor.
    + pose proof (snprintf_f_length fmt off size v). cbn [fst snprintf_f] in *. lia.
    + eapply Forall_impl; [apply (IH (off + W)%nat (size - W)%nat W)|].
      cbn beta. intros st Hst. lia.
Qed.

Lemma store_blocks_frame S stores : forall mem a,
  Forall (fun st => (fst st + length (snd st) <= S)%nat) stores ->
  (S <= a)%nat -> store_blocks stores mem !! a = mem !! a.
Proof.
  induction stores as [|b bs IH]; intros mem a Hall Ha; [reflexivity|].
  apply Forall_cons in Hall. destruct Hall as [Hb Hbs].
  rewrite store_blocks_cons, IH by assumption.
  apply list_lookup_inserts_ge. lia.
Qed.

(** C5: for every buffer size [S], float array and width [W], the
    serializer stores nothing at or beyond offset [S] (memory there is
    unchanged); it returns after packing the longest prefix of the array
    whose slots fit, that is, it stops as soon as fewer than [W] bytes of
    budget remain; the slot of the [i]-th packed float starts at offset
    [i * W]; what is stored there is the text of that very float, cut to the
    bytes that remain in the buffer less one, followed by a terminator; and
    in the buffer after the call the slot begins with the characters of that
    text, as far as they fit the slot and leave room for the terminator. *)
Theorem PackFloatsInStr_safe fmt S floats W :
  let stores := PackFloatsInStr fmt 0 S floats W in
  let n := packed_count S floats W in
  Forall (fun a => (a < S)%nat) (stored_offsets stores)
  /\ (forall mem a, (S <= a)%nat -> store_blocks stores mem !! a = mem !! a)
  /\ length stores = n
  /\ (n <= length floats)%nat
  /\ (n * W <= S)%nat
  /\ (n = length floats \/ (S - n * W < W)%nat)
  /\ map fst stores = map (fun i => (i * W)%nat) (seq 0 n)
  /\ (forall i v, floats !! i = Some v -> (i < n)%nat ->
        stores !! i
        = Some ((i * W)%nat,
                if (S - i * W =? 0)%nat then []
                else take (S - i * W - 1) (fmt v) ++ [NUL]))
  /\ (forall i v, floats !! i = Some v -> (i < n)%nat -> (0 < W)%nat ->
        exists text, stores !! i = Some ((i * W)%nat, text ++ [NUL])
                     /\ text = take (S - i * W - 1) (fmt v)
                     /\ (Nat.min (W - 1) (length (fmt v)) <= length text)%nat)
  /\ (forall buf i v j, length buf = S ->
        floats !! i = Some v -> (i < n)%nat ->
        (j < W)%nat -> (j < length (fmt v))%nat -> (i * W + j + 1 < S)%nat ->
        store_blocks stores buf !! (i * W + j)%nat = fmt v !! j).
Proof.
  intros stores n. unfold stores, n.
  destruct (packed_count_spec floats S W) as (H1 & H2 & H3).
  split.
  { eapply Forall_impl; [apply (PackFloatsInStr_within fmt floats 0%nat S W)|].
    cbn beta. intros a Ha. lia. }
  split.
  { intros mem a Ha. apply (store_blocks_frame S); [|exact Ha].
    apply (PackFloatsInStr_blocks_within fmt floats 0%nat S W). }
  split; [apply PackFloatsInStr_length|].
  split; [exact H1|]. split; [exact H2|].
  split; [lia|].
  split; [apply PackFloatsInStr_slots|].
  assert (Hblock : forall i v, floats !! i = Some v ->
            (i < packed_count S floats W)%nat ->
            PackFloatsInStr fmt 0 S floats W !! i
            = Some ((i * W)%nat,
                    if (S - i * W =? 0)%nat then []
                    else take (S - i * W - 1) (fmt v) ++ [NUL])).
  { intros i v Hv Hi.
    rewrite (PackFloatsInStr_block fmt floats 0%nat S W i v Hv Hi).
    rewrite snprintf_f_eq, Nat.add_0_l. reflexivity. }
  split; [exact Hblock|]. split.
  - intros i v Hv Hi HW.
    assert (Hroom : (i * W + W <= S)%nat) by nia.
    exists (take (S - i * W - 1) (fmt v)).
    rewrite (Hblock i v Hv Hi).
    destruct (Nat.eqb_spec (S - i * W) 0) as [E|_]; [lia|].
    split; [reflexivity|]. split; [reflexivity|].
    rewrite length_take. lia.
  - intros buf i v j Hbuf Hv Hi Hj Hjl Hjs. subst S.
    pose proof (PackFloatsInStr_slot fmt floats 0%nat (length buf) W buf i v j
                  ltac:(lia) Hv Hi Hj) as H.
    cbn [snprintf_f snd] in H. rewrite Nat.add_0_l in H.
    destruct (length buf - i * W)%nat as [|n'] eqn:En; [lia|].
    rewrite H by (rewrite length_app, length_take; cbn [length]; lia).
    rewrite lookup_app_l by (rewrite length_take; lia).
    apply lookup_take_lt. lia.
Qed.

(** C10: the floats [[1.0, 2.0, 3.0]] at width 8.  With 25 bytes all three
    are packed: 24 characters and the terminator.  With 10 bytes only the
    first is packed: its 8 characters and a terminator; the last byte of the
    buffer is never stored to and keeps its zero. *)
Theorem PackFloatsInStr_examples :
  (packed_count 25 one_two_three 8 = 3%nat
   /\ store_blocks (PackFloatsInStr format_f 0 25 one_two_three 8)
        (replicate 25 NUL)
      = text_1_2_3 ++ [NUL])
  /\ (packed_count 10 one_two_three 8 = 1%nat
      /\ store_blocks (PackFloatsInStr format_f 0 10 one_two_three 8)
           (replicate 10 NUL)
         = text_1 ++ [NUL; NUL]
      /\ stored_offsets (PackFloatsInStr format_f 0 10 one_two_three 8)
         = seq 0 9).
Proof. vm_compute. repeat split; reflexivity. Qed.

(* ================================================================= *)
(** ** The telemetry line *)

Lemma float_data_arr_angles rk :
  length (canard_rotations rk) = 4%nat -> float_data_arr rk = angles rk.
Proof.
  destruct rk as [p r y cs].
  destruct cs as [|c0 [|c1 [|c2 [|c3 [|c4 cs]]]]]; try discriminate.
  intros _. reflexivity.
Qed.

Lemma loop_output atan2f fmt t s :
  snd (loop atan2f fmt t s)
  = [SendDataToSerial fmt (rocket (fst (loop atan2f fmt t s)))].
Proof. reflexivity. Qed.

(** C8: in simulation mode each tick sends exactly one line: the texts of
    pitch, roll, yaw and the four canard angles, in this order and with
    nothing between them, each exactly eight characters long, followed by
    the line terminator.  This holds for every conversion [fmt] that prints
    a float of [[0, PI2)] on eight characters, as [%f] does. *)
Theorem telemetry_line atan2f fmt now ticks t :
  finite_preserving atan2f ->
  (forall r, nonneg_below PI2 r ->
     length (fmt r) = 8%nat /\ Forall (fun c => c <> NUL) (fmt r)) ->
  Forall tick_ok (ticks ++ [t]) ->
  let s := fst (run atan2f fmt now ticks) in
  let rk := rocket (fst (loop atan2f fmt t s)) in
  let fields := [pitch rk; roll rk; yaw rk;
                 canard rk 0; canard rk 1; canard rk 2; canard rk 3] in
  SIM_MODE_ON = true
  /\ snd (loop atan2f fmt t s) = [concat (map fmt fields) ++ CRLF]
  /\ Forall (fun v => length (fmt v) = 8%nat) fields
  /\ length (concat (map fmt fields)) = 56%nat.
Proof.
  intros Hat Hfmt Hticks s rk fields.
  assert (Hok : rocket_ok rk).
  { unfold rk, s, run.
    replace (fst (loop atan2f fmt t (fst (run_from atan2f fmt (setup now) ticks))))
      with (fst (run_from atan2f fmt (setup now) (ticks ++ [t])))
      by (rewrite run_from_snoc; reflexivity).
    apply run_from_ok; [exact Hat | exact Hticks | exact Rocket_init_ok]. }
  destruct Hok as [Hlen Hall].
  assert (Hfields : fields = angles rk) by (apply float_data_arr_angles, Hlen).
  assert (Hw : Forall (fun v => length (fmt v) = 8%nat
                                /\ Forall (fun c => c <> NUL) (fmt v)) fields).
  { rewrite Hfields. eapply Forall_impl; [exact Hall|]. exact Hfmt. }
  assert (Hlen8 : Forall (fun v => length (fmt v) = 8%nat) fields)
    by (eapply Forall_impl; [exact Hw | intros v [H _]; exact H]).
  split; [reflexivity|]. split; [|split; [exact Hlen8|]].
  - rewrite loop_output. fold rk. f_equal. apply SendDataToSerial_eq. exact Hw.
  - unfold fields in *. cbn [map concat]. rewrite !length_app.
    repeat match goal with
           | H : Forall _ (_ :: _) |- _ => apply Forall_cons in H; destruct H as [? H]
           end.
    cbn [length]. lia.
Qed.

Lemma telemetry_line_witness :
  finite_preserving atan2f_axes
  /\ (forall r, nonneg_below PI2 r ->
        length (format_f r) = 8%nat /\ Forall (fun c => c <> NUL) (format_f r))
  /\ Forall tick_ok ([mkTick 500 ready_sensor] ++ [mkTick 1500 idle_sensor])
  /\ snd (loop atan2f_axes format_f (mkTick 1500 idle_sensor)
            (fst (run atan2f_axes format_f 0 [mkTick 500 ready_sensor])))
     = [concat
          (map format_f
             (let rk :=
                rocket (fst (loop atan2f_axes format_f (mkTick 1500 idle_sensor)
                               (fst (run atan2f_axes format_f 0
                                       [mkTick 500 ready_sensor])))) in
              [pitch rk; roll rk; yaw rk;
               canard rk 0; canard rk 1; canard rk 2; canard rk 3]))
        ++ CRLF].
Proof.
  split; [exact atan2f_axes_finite|]. split; [exact format_f_width|].
  split; [exact pad_ticks_ok|].
  exact (proj1 (proj2 (telemetry_line atan2f_axes format_f 0
                         [mkTick 500 ready_sensor] (mkTick 1500 idle_sensor)
                         atan2f_axes_finite format_f_width pad_ticks_ok))).
Defined.

(** The first line after power-up, evaluated with the [%f] conversion. *)
Example first_telemetry_line :
  snd (run atan2f_axes format_f 0 [mkTick 0 idle_sensor])
  = [text_zero_line ++ CRLF].
Proof. vm_compute. reflexivity. Qed.

(* ================================================================= *)
(** ** Further properties of the normalizers *)

Lemma normalize_twice mh eh mf ef x :
  valid_binary prec emax (S754_finite false mh eh) = true ->
  valid_binary prec emax (S754_finite false mf ef) = true ->
  valid_binary prec emax x = true ->
  normalize_spec (S754_finite false mh eh) (S754_finite false mf ef)
    (normalize_spec (S754_finite false mh eh) (S754_finite false mf ef) x)
  = normalize_spec (S754_finite false mh eh) (S754_finite false mf ef) x.
Proof.
  intros Vh Vf Vx. destruct (is_finite x) eqn:Fx.
  - apply normalize_fixpoint; [exact Vf|].
    apply normalize_below; [exact Vh | exact Vf | split; assumption].
  - destruct x as [s|[]| |s m e]; try discriminate; reflexivity.
Qed.

Lemma fixRadian_twice x :
  valid_binary prec emax x = true -> fixRadian (fixRadian x) = fixRadian x.
Proof.
  intros Vx. rewrite !fixRadian_normalize, PI_eq, PI2_eq.
  apply normalize_twice; [reflexivity | reflexivity | exact Vx].
Qed.

(** X1: the degree normalizer is idempotent on the finite floats: for every
    finite [x], a second application returns the same float as the first, and
    the two results compare equal with the program's [==]. *)
Theorem fixDegree_idempotent x :
  finite_float x ->
  fixDegree (fixDegree x) = fixDegree x
  /\ feq (fixDegree (fixDegree x)) (fixDegree x) = true.
Proof.
  intros Fx. pose proof (fixDegree_below x Fx) as Hb.
  assert (E : fixDegree (fixDegree x) = fixDegree x).
  { rewrite !fixDegree_normalize, f180_eq, f360_eq.
    apply normalize_twice; [reflexivity | reflexivity | apply Fx]. }
  rewrite E. split; [reflexivity|].
  apply (feq_refl_below f360), Hb.
Qed.

Lemma fixDegree_idempotent_witness :
  finite_float (float_of_Z (-90))
  /\ fixDegree (fixDegree (float_of_Z (-90))) = fixDegree (float_of_Z (-90))
  /\ feq (fixDegree (fixDegree (float_of_Z (-90)))) (fixDegree (float_of_Z (-90)))
     = true.
Proof.
  assert (F : finite_float (float_of_Z (-90))) by (split; reflexivity).
  split; [exact F|].
  exact (fixDegree_idempotent (float_of_Z (-90)) F).
Defined.

(** X2: an infinity or a NaN is turned into a NaN by both normalizers. *)
Theorem normalizers_not_finite x :
  is_finite x = false -> fixRadian x = S754_nan /\ fixDegree x = S754_nan.
Proof.
  intros Fx. destruct x as [s|[]| |s m e]; try discriminate;
    split; vm_compute; reflexivity.
Qed.

Lemma normalizers_not_finite_witness :
  is_finite (S754_infinity true) = false
  /\ fixRadian (S754_infinity true) = S754_nan
  /\ fixDegree (S754_infinity true) = S754_nan.
Proof.
  split; [reflexivity|]. apply (normalizers_not_finite (S754_infinity true)).
  reflexivity.
Defined.

(** X3: among the finite floats, [fixRadian] leaves unchanged exactly those
    that are [+0] or positive and below [PI2]; in particular [-0] is mapped
    to [+0]. *)
Theorem fixRadian_fixed_points r :
  finite_float r ->
  (fixRadian r = r
   <-> match r with
       | S754_zero s | S754_finite s _ _ => s = false
       | _ => False
       end
       /\ flt r PI2 = true).
Proof.
  intros Fr. split.
  - intros H. pose proof (fixRadian_below r Fr) as Hb. rewrite H in Hb.
    destruct r as [s|s| |s m e]; cbn [nonneg_below] in Hb; try contradiction.
    + subst s. split; [reflexivity|]. rewrite PI2_eq. reflexivity.
    + destruct Hb as (-> & _ & Hlt). split; [reflexivity | exact Hlt].
  - intros [Hs Hlt]. apply fixRadian_fixpoint.
    destruct r as [s|s| |s m e]; try contradiction; cbn [nonneg_below].
    + exact Hs.
    + split; [exact Hs|]. split; [apply Fr | exact Hlt].
Qed.

Lemma fixRadian_fixed_points_witness :
  finite_float (float_of_Z 3) /\ fixRadian (float_of_Z 3) = float_of_Z 3.
Proof.
  assert (F : finite_float (float_of_Z 3)) by (split; reflexivity).
  split; [exact F|].
  apply (proj2 (fixRadian_fixed_points (float_of_Z 3) F)).
  split; reflexivity.
Defined.

(* ================================================================= *)
(** ** The time step *)

Lemma binary_round_aux_sign s m e l :
  0 < m -> e <= fexp prec emax (Zdigits2 m + e) ->
  match binary_round_aux prec emax s m e l with
  | S754_zero s' | S754_infinity s' | S754_finite s' _ _ => s' = s
  | S754_nan => False
  end.
Proof.
  intros Hm He.
  destruct (binary_round_aux_spec s m e l Hm He) as (m2 & _ & _ & ->).
  unfold round_result. destruct m2 as [|q|q]; try reflexivity.
  destruct (Z.pos q <? 2 ^ 24); [destruct (_ <=? 104) | destruct (_ + 1 <=? 104)];
    reflexivity.
Qed.

Lemma ulong_sub_wrap last d :
  0 <= d < 2 ^ 32 -> ulong_sub ((last + d) mod 2 ^ 32) last = d.
Proof.
  intros Hd. unfold ulong_sub. rewrite Zminus_mod_idemp_l.
  replace (last + d - last) with d by lia. apply Z.mod_small, Hd.
Qed.

Lemma float_of_Z_mag u :
  0 < u < 2 ^ 32 -> mag_le 32 (float_of_Z u).
Proof.
  intros Hu. destruct u as [|p|p]; try lia.
  unfold float_of_Z. cbn [binary_normalize].
  apply binary_round_mag; [lia|].
  assert (Zdigits2 (Z.pos p) <= 32) by (apply Zdigits2_le; lia). lia.
Qed.

(** The elapsed time in seconds is a finite non-negative float of at most
    [2^23]. *)
Lemma delta_time_range a b :
  match delta_time a b with
  | S754_zero s => s = false
  | S754_finite s m e =>
      s = false /\ valid_binary prec emax (S754_finite s m e) = true
      /\ e <= 23 /\ Zpos m <= 2 ^ (23 - e)
  | _ => False
  end.
Proof.
  unfold delta_time, ulong_sub.
  pose proof (Z.mod_pos_bound (a - b) (2 ^ 32) ltac:(lia)) as Hu.
  destruct (Z.eq_dec ((a - b) mod 2 ^ 32) 0) as [->|Hnz]; [reflexivity|].
  pose proof (float_of_Z_mag ((a - b) mod 2 ^ 32) ltac:(lia)) as Hmag.
  destruct (float_of_Z_shape ((a - b) mod 2 ^ 32) ltac:(lia))
    as (m & e & Hf & Hm & He).
  rewrite Hf in Hmag |- *.
  cbn [mag_le] in Hmag. destruct Hmag as [_ Hmag].
  rewrite f1000_eq. unfold fdiv. cbn [SFdiv xorb].
  destruct (SFdiv_core_binary_eq (Z.pos m) e (Z.pos 16384000) (-14)
              ltac:(lia) ltac:(lia)) as (l & ->).
  assert (Hd : Zdigits2 (Z.pos m) = 24).
  { assert (Zdigits2 (Z.pos m) <= 24) by (apply Zdigits2_le; lia).
    assert (23 + 1 <= Zdigits2 (Z.pos m)) by (apply Zdigits2_ge; lia). lia. }
  rewrite Hd. change (Zdigits2 (Z.pos 16384000)) with 24.
  rewrite fexp_eq.
  replace (Z.min (Z.max (24 + e - (24 + -14) - 24) (-149)) (e - -14))
    with (e - 10) by lia.
  replace (e - -14 - (e - 10)) with 24 by lia.
  set (q := Z.pos m * 2 ^ 24 / Z.pos 16384000).
  assert (Hq : 2 ^ 23 <= q < 2 ^ (33 - e)).
  { unfold q. split.
    - apply Z.div_le_lower_bound; lia.
    - apply Z.div_lt_upper_bound; [lia|].
      assert (Z.pos m * 2 ^ 24 <= 2 ^ (32 - e) * 2 ^ 24) by nia.
      assert (2 ^ (32 - e) * 2 ^ 24 < 16384000 * 2 ^ (33 - e)); [|lia].
      rewrite (pow2_split (32 - e) (33 - e)) by lia.
      replace (33 - e - (32 - e)) with 1 by lia. change (2 ^ 1) with 2.
      pose proof (pow2_pos (32 - e) ltac:(lia)). lia. }
  assert (Hdq : 24 <= Zdigits2 q <= 33 - e).
  { split; [apply (Zdigits2_ge q 23); lia | apply Zdigits2_le; lia]. }
  assert (Hpre : e - 10 <= fexp prec emax (Zdigits2 q + (e - 10)))
    by (rewrite fexp_eq; lia).
  pose proof (binary_round_aux_sign false q (e - 10) l ltac:(lia) Hpre) as Hs.
  pose proof (binary_round_aux_valid false q (e - 10) l ltac:(lia) Hpre) as Hv.
  pose proof (binary_round_aux_mag false q (e - 10) l 23 ltac:(lia) Hpre
                ltac:(lia) ltac:(lia)) as Hm23.
  destruct (binary_round_aux prec emax false q (e - 10) l) as [s|s| |s m' e'];
    try contradiction; [exact Hs|].
  cbn [mag_le] in Hm23. repeat split; try apply Hm23; assumption.
Qed.

(** X4: the time step survives the overflow of [millis()]: when [d]
    milliseconds ([d < 2^32]) have passed since the last tick, [deltaTime]
    is [float(d) / 1000.0f] whatever the last clock reading was, also when
    the counter has wrapped in between; and it is always a finite float with
    [0 <= deltaTime <= 8388608]. *)
Theorem delta_time_wraps last d :
  0 <= d < 2 ^ 32 ->
  delta_time ((last + d) mod 2 ^ 32) last = fdiv (float_of_Z d) f1000
  /\ finite_float (delta_time ((last + d) mod 2 ^ 32) last)
  /\ fle f0 (delta_time ((last + d) mod 2 ^ 32) last) = true
  /\ 0 <= ulps (delta_time ((last + d) mod 2 ^ 32) last) <= 8388608 * 2 ^ 149.
Proof.
  intros Hd. split.
  { unfold delta_time. rewrite ulong_sub_wrap by exact Hd. reflexivity. }
  split; [apply delta_time_finite|].
  pose proof (delta_time_range ((last + d) mod 2 ^ 32) last) as Hr.
  destruct (delta_time ((last + d) mod 2 ^ 32) last) as [s|s| |s m e];
    try contradiction.
  - subst s. split; [reflexivity|]. cbn. lia.
  - destruct Hr as (-> & Hv & He & Hm). split; [reflexivity|].
    cbn [ulps cond_Zopp].
    apply valid_finite_inv in Hv. destruct Hv as (_ & Hev & _).
    pose proof (pow2_pos (e + 149) ltac:(lia)) as Hp.
    split; [lia|].
    replace (8388608 * 2 ^ 149) with (2 ^ (23 - e) * 2 ^ (e + 149)).
    + nia.
    + rewrite <- Z.pow_add_r by lia. replace (23 - e + (e + 149)) with 172 by lia.
      reflexivity.
Qed.

Lemma delta_time_wraps_witness :
  0 <= 16 < 2 ^ 32
  /\ delta_time ((4294967290 + 16) mod 2 ^ 32) 4294967290
     = fdiv (float_of_Z 16) f1000.
Proof.
  split; [lia|].
  apply (delta_time_wraps 4294967290 16). lia.
Defined.

(* ================================================================= *)
(** ** Further properties of the serializer *)

(** As soon as one float is packed into a buffer that is not empty, the
    buffer holds a terminator. *)
Lemma PackFloatsInStr_NUL fmt floats : forall off size W buf,
  (off + size <= length buf)%nat ->
  packed_count size floats W <> 0%nat -> (0 < size)%nat ->
  exists i, (off <= i < off + size)%nat
            /\ store_blocks (PackFloatsInStr fmt off size floats W) buf !! i
               = Some NUL.
Proof.
  induction floats as [|v rest IH]; intros off size W buf Hbuf Hcount Hsize;
    cbn [PackFloatsInStr packed_count] in *; [congruence|].
  destruct (Nat.leb_spec W size) as [Hle|Hgt]; [|congruence].
  rewrite store_blocks_cons. cbn [fst snd snprintf_f].
  destruct size as [|n']; [lia|].
  set (buf1 := list_inserts off (take n' (fmt v) ++ [NUL]) buf).
  assert (Hlen1 : length buf1 = length buf) by apply length_inserts.
  destruct (Nat.eq_dec (packed_count (S n' - W) rest W) 0) as [E0|N0].
  - rewrite (PackFloatsInStr_none _ _ _ _ _ E0). cbn [store_blocks foldl].
    exists (off + length (take n' (fmt v)))%nat.
    pose proof (length_take (fmt v) n') as Ht.
    split; [lia|]. unfold buf1.
    rewrite list_lookup_inserts
      by (rewrite ?length_app; cbn [length]; lia).
    replace (off + length (take n' (fmt v)) - off)%nat
      with (length (take n' (fmt v))) by lia.
    apply list_lookup_middle. reflexivity.
  - destruct (packed_count_spec rest (S n' - W)%nat W) as (_ & H2 & _).
    destruct (IH (off + W)%nat (S n' - W)%nat W buf1) as (i & Hi & Hl);
      [lia | exact N0 | nia |].
    exists i. split; [lia | exact Hl].
Qed.

Lemma c_str_length_le buf : forall i,
  buf !! i = Some NUL -> (length (c_str buf) <= i)%nat.
Proof.
  induction buf as [|c rest IH]; intros i Hi; [discriminate|].
  cbn [c_str]. destruct (Ascii.eqb_spec c NUL) as [E|N]; [cbn; lia|].
  destruct i as [|i']; [cbn in Hi; congruence|].
  cbn [length]. specialize (IH i' Hi). lia.
Qed.

Lemma c_str_no_NUL buf : Forall (fun c => c <> NUL) (c_str buf).
Proof.
  induction buf as [|c rest IH]; cbn [c_str]; [constructor|].
  destruct (Ascii.eqb_spec c NUL) as [E|N]; constructor; assumption.
Qed.

(** X5: whatever the texts, after packing into a buffer of [S] bytes the
    buffer is either untouched (no float fitted, or [S = 0]) or holds a
    terminator at some offset below [S], so that reading it as a C string
    never leaves the buffer. *)
Theorem PackFloatsInStr_terminated fmt floats W buf :
  let final := store_blocks (PackFloatsInStr fmt 0 (length buf) floats W) buf in
  if ((packed_count (length buf) floats W =? 0)
      || (length buf =? 0))%nat
  then final = buf
  else exists i, (i < length buf)%nat /\ final !! i = Some NUL
                 /\ (length (c_str final) <= i)%nat.
Proof.
  intros final. unfold final.
  destruct (Nat.eqb_spec (packed_count (length buf) floats W) 0) as [E0|N0].
  - cbn [orb]. rewrite (PackFloatsInStr_none _ _ _ _ _ E0). reflexivity.
  - destruct (Nat.eqb_spec (length buf) 0) as [El|Nl]; cbn [orb].
    + apply length_zero_iff_nil in El. subst buf.
      apply length_zero_iff_nil. rewrite store_blocks_length. reflexivity.
    + destruct (PackFloatsInStr_NUL fmt floats 0%nat (length buf) W buf)
        as (i & Hi & Hl); [lia | exact N0 | lia |].
      exists i. split; [lia|]. split; [exact Hl|].
      apply c_str_length_le, Hl.
Qed.

(** X6: fixed-offset parsing.  In the packed buffer the slot of the [i]-th
    packed float begins with the characters of that float's own text, as far
    as they fit the slot and the buffer: earlier, longer texts that ran into
    the slot are overwritten, later stores start beyond it.  A text shorter
    than the slot is followed by a terminator inside the slot. *)
Theorem PackFloatsInStr_slot_text fmt floats W buf i v :
  floats !! i = Some v -> (i < packed_count (length buf) floats W)%nat ->
  let final := store_blocks (PackFloatsInStr fmt 0 (length buf) floats W) buf in
  (forall j, (j < W)%nat -> (j < length (fmt v))%nat ->
             (i * W + j + 1 < length buf)%nat ->
             final !! (i * W + j)%nat = fmt v !! j)
  /\ ((length (fmt v) < W)%nat -> (i * W + length (fmt v) < length buf)%nat ->
      final !! (i * W + length (fmt v))%nat = Some NUL).
Proof.
  intros Hv Hi final. unfold final. split.
  - intros j Hj Hjl Hjs.
    pose proof (PackFloatsInStr_slot fmt floats 0%nat (length buf) W buf i v j
                  ltac:(lia) Hv Hi Hj) as H.
    cbn [snprintf_f snd] in H. rewrite Nat.add_0_l in H.
    destruct (length buf - i * W)%nat as [|n'] eqn:En; [lia|].
    rewrite H by (rewrite length_app, length_take; cbn [length]; lia).
    rewrite lookup_app_l by (rewrite length_take; lia).
    apply lookup_take_lt. lia.
  - intros Hshort Hfit.
    pose proof (PackFloatsInStr_slot fmt floats 0%nat (length buf) W buf i v
                  (length (fmt v)) ltac:(lia) Hv Hi Hshort) as H.
    cbn [snprintf_f snd] in H. rewrite Nat.add_0_l in H.
    destruct (length buf - i * W)%nat as [|n'] eqn:En; [lia|].
    rewrite take_ge in H by lia.
    rewrite H by (rewrite length_app; cbn [length]; lia).
    apply list_lookup_middle. reflexivity.
Qed.

Lemma PackFloatsInStr_slot_text_witness :
  one_two_three !! 1%nat = Some (float_of_Z 2)
  /\ (1 < packed_count (length (replicate 25 NUL)) one_two_three 8)%nat
  /\ store_blocks
       (PackFloatsInStr format_f 0 (length (replicate 25 NUL)) one_two_three 8)
       (replicate 25 NUL) !! (1 * 8 + 0)%nat
     = format_f (float_of_Z 2) !! 0%nat.
Proof.
  assert (H1 : one_two_three !! 1%nat = Some (float_of_Z 2)) by reflexivity.
  assert (H2 : (1 < packed_count (length (replicate 25 NUL)) one_two_three 8)%nat)
    by (vm_compute; lia).
  split; [exact H1|]. split; [exact H2|].
  apply (proj1 (PackFloatsInStr_slot_text format_f one_two_three 8
                  (replicate 25 NUL) 1 (float_of_Z 2) H1 H2));
    vm_compute; lia.
Defined.

Lemma packed_count_closed S floats W :
  packed_count S floats W
  = if (W =? 0)%nat then length floats
    else Nat.min (length floats) (S / W).
Proof.
  destruct (packed_count_spec floats S W) as (H1 & H2 & H3).
  destruct (Nat.eqb_spec W 0) as [->|HW].
  - lia.
  - assert (Hdiv : (packed_count S floats W <= S / W)%nat).
    { apply Nat.div_le_lower_bound; [exact HW | lia]. }
    destruct (Nat.eq_dec (packed_count S floats W) (length floats)) as [E|N].
    + lia.
    + assert (S / W < packed_count S floats W + 1)%nat; [|lia].
      apply Nat.Div0.div_lt_upper_bound. lia.
Qed.

(** X7: how many floats the serializer packs, from any starting offset: all
    of them when the width is zero, otherwise as many as there are whole
    slots in the buffer; these are the first floats of the array, each stored
    at its own slot, and nothing is stored for the others. *)
Theorem PackFloatsInStr_count fmt off S floats W :
  let n := if (W =? 0)%nat then length floats
           else Nat.min (length floats) (S / W) in
  let stores := PackFloatsInStr fmt off S floats W in
  length stores = n
  /\ (forall i, (n <= i)%nat -> stores !! i = None)
  /\ (forall i, (i < n)%nat ->
        exists v, floats !! i = Some v
          /\ stores !! i
             = Some ((off + i * W)%nat,
                     if (S - i * W =? 0)%nat then []
                     else take (S - i * W - 1) (fmt v) ++ [NUL])).
Proof.
  intros n stores. unfold n, stores. rewrite <- packed_count_closed.
  pose proof (PackFloatsInStr_length fmt floats off S W) as Hlen.
  destruct (packed_count_spec floats S W) as (H1 & _).
  split; [exact Hlen|]. split.
  - intros i Hi. apply lookup_ge_None_2. lia.
  - intros i Hi.
    destruct (lookup_lt_is_Some_2 floats i ltac:(lia)) as [v Hv].
    exists v. split; [exact Hv|].
    rewrite (PackFloatsInStr_block fmt floats off S W i v Hv Hi).
    rewrite snprintf_f_eq. reflexivity.
Qed.

(* ================================================================= *)
(** ** Further properties of the control loop *)

Lemma SendDataToSerial_bounded fmt rk :
  exists body,
    SendDataToSerial fmt rk = body ++ CRLF
    /\ (length body <= 56)%nat /\ Forall (fun c => c <> NUL) body.
Proof.
  unfold SendDataToSerial, Serial_println.
  set (final := store_blocks _ _).
  exists (c_str final). split; [reflexivity|]. split; [|apply c_str_no_NUL].
  destruct (PackFloatsInStr_NUL fmt (float_data_arr rk) 0%nat DATA_STR_SIZE
              FLOAT_CHARS (replicate DATA_STR_SIZE NUL))
    as (i & Hi & Hl).
  - rewrite length_replicate. lia.
  - discriminate.
  - unfold DATA_STR_SIZE, FLOAT_CHARS, FLOAT_ARR_ELEMS. lia.
  - fold final in Hl. apply c_str_length_le in Hl.
    unfold DATA_STR_SIZE, FLOAT_CHARS, FLOAT_ARR_ELEMS in Hi. lia.
Qed.

(** X8: in simulation mode a run sends exactly one line per tick, whatever
    the sensor delivers and however [%f] prints (long texts, [nan], [inf]
    included): each line is at most 56 characters, none of them a
    terminator, followed by CR LF. *)
Theorem one_bounded_line_per_tick atan2f fmt now ticks :
  length (snd (run atan2f fmt now ticks)) = length ticks
  /\ Forall (fun line =>
               exists body, line = body ++ CRLF
                            /\ (length body <= 56)%nat
                            /\ Forall (fun c => c <> NUL) body)
       (snd (run atan2f fmt now ticks)).
Proof.
  unfold run. induction ticks as [|t ticks [IHn IHl]] using rev_ind.
  - split; [reflexivity | constructor].
  - rewrite run_from_snoc. cbn [snd]. rewrite loop_output. split.
    + rewrite !length_app, IHn. reflexivity.
    + apply Forall_app. split; [exact IHl|].
      constructor; [apply SendDataToSerial_bounded | constructor].
Qed.

(** X9: the four canard angles are equal in every state the program
    reaches: they start equal and every tick applies the same step to each. *)
Theorem canards_all_equal atan2f fmt now ticks :
  exists c,
    canard_rotations (rocket (fst (run atan2f fmt now ticks))) = replicate 4 c.
Proof.
  induction ticks as [|t ticks [c IH]] using rev_ind.
  - exists f0. reflexivity.
  - exists (canard_step
              (delta_time (millis t) (last_tick (fst (run atan2f fmt now ticks))))
              c).
    unfold run in *. rewrite run_from_snoc. cbn [fst].
    rewrite loop_canards by apply (run_canards_ok atan2f fmt now ticks).
    rewrite IH. reflexivity.
Qed.

Lemma last_ready_snoc ticks t :
  last_ready (ticks ++ [t])
  = if dataReady (ICM t) then Some (getAGMT (ICM t)) else last_ready ticks.
Proof. unfold last_ready. rewrite foldl_app. reflexivity. Qed.

(** X10: the estimator has no memory: after any run the stored orientation
    is the one computed from the latest sample that came with fresh data
    (zero if there was none); neither the clock, nor earlier samples, nor
    [accX] or [magZ] influence it. *)
Theorem orientation_from_last_ready atan2f fmt now ticks :
  GetOrientation (rocket (fst (run atan2f fmt now ticks)))
  = match last_ready ticks with
    | None => (f0, f0, f0)
    | Some s =>
        (fixRadian (atan2f (accY s) (accZ s)),
         fixRadian (atan2f (accY s) (accZ s)),
         fixRadian (atan2f (magY s) (magX s)))
    end.
Proof.
  unfold run. induction ticks as [|t ticks IH] using rev_ind.
  - reflexivity.
  - rewrite run_from_snoc, last_ready_snoc. cbn [fst].
    destruct (dataReady (ICM t)) eqn:Hr.
    + rewrite loop_rocket, StabilizationSystem_orientation.
      rewrite SetOrientationFromSensors_eq, Hr. reflexivity.
    + rewrite loop_orientation_idle by exact Hr. exact IH.
Qed.

Lemma delta_time_same a : delta_time a a = f0.
Proof.
  unfold delta_time, ulong_sub. rewrite Z.sub_diag, Z.mod_0_l by lia.
  reflexivity.
Qed.

Lemma canard_step_zero c : nonneg_below PI2 c -> canard_step f0 c = c.
Proof.
  intros Hc. unfold canard_step. rewrite sweep_eq.
  replace (fadd c (fmul (S754_finite false 14055248 (-25)) f0)) with c.
  - apply fixRadian_fixpoint, Hc.
  - destruct c as [s|s| |s m e]; cbn [nonneg_below] in Hc; try contradiction.
    + subst s. reflexivity.
    + reflexivity.
Qed.

Lemma canard_step_zero_all cs :
  Forall (nonneg_below PI2) cs -> map (canard_step f0) cs = cs.
Proof.
  induction 1 as [|c cs Hc _ IH]; [reflexivity|].
  cbn [map]. rewrite (canard_step_zero c Hc), IH. reflexivity.
Qed.

(** X11: a tick on which no time has passed (the clock reads what it read
    on the previous tick) leaves the four canard angles as they are. *)
Theorem no_time_no_sweep atan2f fmt now ticks t :
  millis t = last_tick (fst (run atan2f fmt now ticks)) ->
  canard_rotations
    (rocket (fst (loop atan2f fmt t (fst (run atan2f fmt now ticks)))))
  = canard_rotations (rocket (fst (run atan2f fmt now ticks))).
Proof.
  intros Hclock.
  destruct (run_canards_ok atan2f fmt now ticks) as [Hlen Hall].
  rewrite loop_canards by exact Hlen. rewrite Hclock, delta_time_same.
  apply canard_step_zero_all, Hall.
Qed.

Lemma no_time_no_sweep_witness :
  millis (mkTick 1000 ready_sensor)
  = last_tick (fst (run atan2f_axes format_f 0 [mkTick 1000 idle_sensor]))
  /\ canard_rotations
       (rocket (fst (loop atan2f_axes format_f (mkTick 1000 ready_sensor)
                       (fst (run atan2f_axes format_f 0 [mkTick 1000 idle_sensor])))))
     = canard_rotations
         (rocket (fst (run atan2f_axes format_f 0 [mkTick 1000 idle_sensor]))).
Proof.
  split; [reflexivity|].
  apply (no_time_no_sweep atan2f_axes format_f 0 [mkTick 1000 idle_sensor]
           (mkTick 1000 ready_sensor)).
  reflexivity.
Defined.

(* ================================================================= *)
(** ** [SetCanardRotations], [ActuateCanard] and [setup] *)

(** X12: [SetCanardRotations] on a four-element array replaces each entry,
    in the caller's array and in the state alike, by its normalized value,
    and leaves pitch, roll and yaw alone; calling it again with the array it
    returned changes nothing; finite entries end up within [[0, PI2)]. *)
Theorem SetCanardRotations_normalizes rad rk :
  length rad = 4%nat -> length (canard_rotations rk) = 4%nat ->
  Forall (fun x => valid_binary prec emax x = true) rad ->
  fst (SetCanardRotations rad rk) = map fixRadian rad
  /\ canard_rotations (snd (SetCanardRotations rad rk)) = map fixRadian rad
  /\ GetOrientation (snd (SetCanardRotations rad rk)) = GetOrientation rk
  /\ SetCanardRotations (fst (SetCanardRotations rad rk))
                        (snd (SetCanardRotations rad rk))
     = SetCanardRotations rad rk
  /\ (Forall (fun x => is_finite x = true) rad ->
      Forall angle_ok (canard_rotations (snd (SetCanardRotations rad rk)))).
Proof.
  intros Hrad Hrk Hval. rewrite (SetCanardRotations_eq rad rk Hrad Hrk).
  cbn [fst snd canard_rotations GetOrientation pitch roll yaw].
  split; [reflexivity|]. split; [reflexivity|]. split; [reflexivity|].
  assert (Htwice : map fixRadian (map fixRadian rad) = map fixRadian rad).
  { clear Hrad. induction Hval as [|x xs Hx _ IH]; [reflexivity|].
    cbn [map]. rewrite (fixRadian_twice x Hx), IH. reflexivity. }
  split.
  - rewrite SetCanardRotations_eq
      by (cbn [canard_rotations]; rewrite length_map; exact Hrad).
    cbn [pitch roll yaw]. rewrite Htwice. reflexivity.
  - intros Hfin. apply Forall_map.
    clear Hrad Htwice. induction Hval as [|x xs Hx _ IH]; [constructor|].
    apply Forall_cons in Hfin. destruct Hfin as [Fx Fxs].
    constructor; [|apply IH, Fxs].
    apply fixRadian_angle_ok. split; assumption.
Qed.

Lemma SetCanardRotations_normalizes_witness :
  length [float_of_Z (-5); float_of_Z 7; f0; S754_nan] = 4%nat
  /\ length (canard_rotations Rocket_init) = 4%nat
  /\ Forall (fun x => valid_binary prec emax x = true)
       [float_of_Z (-5); float_of_Z 7; f0; S754_nan]
  /\ fst (SetCanardRotations [float_of_Z (-5); float_of_Z 7; f0; S754_nan]
            Rocket_init)
     = map fixRadian [float_of_Z (-5); float_of_Z 7; f0; S754_nan].
Proof.
  assert (H : Forall (fun x => valid_binary prec emax x = true)
                [float_of_Z (-5); float_of_Z 7; f0; S754_nan])
    by (repeat constructor).
  split; [reflexivity|]. split; [reflexivity|]. split; [exact H|].
  exact (proj1 (SetCanardRotations_normalizes
                  [float_of_Z (-5); float_of_Z 7; f0; S754_nan] Rocket_init
                  eq_refl eq_refl H)).
Defined.

Lemma RAD2DEG_eq : RAD2DEG = S754_finite false 15019744 (-18).
Proof. vm_compute. reflexivity. Qed.

(** An angle of [[0, PI2)], converted to degrees, is a float of [[0, 360)]. *)
Lemma degrees_below c :
  nonneg_below PI2 c -> nonneg_below f360 (fmul c RAD2DEG).
Proof.
  intros Hc. rewrite RAD2DEG_eq, f360_eq.
  destruct c as [s|s| |s m e]; cbn [nonneg_below] in Hc; try contradiction.
  { subst s. reflexivity. }
  pose proof (below_PI2_inv _ _ _ Hc) as (-> & Hm & He & Hcmp).
  destruct Hc as (_ & Hv & _).
  pose proof (valid_finite_inv _ _ _ Hv) as (Hdm & _ & Hcan).
  rewrite fexp_eq in Hcan.
  unfold fmul. cbn [SFmul xorb]. rewrite Pos2Z.inj_mul.
  set (M := Z.pos m * Z.pos 15019744).
  pose proof (Zdigits2_mul (Z.pos m) (Z.pos 15019744) ltac:(lia) ltac:(lia)) as Hd.
  change (Zdigits2 (Z.pos 15019744)) with 24 in Hd. fold M in Hd.
  destruct (Zdigits2_bounds (Z.pos m) ltac:(lia)) as (Hd1 & _).
  assert (HM : 0 < M) by (unfold M; lia).
  assert (Hpre : e + -18 <= fexp prec emax (Zdigits2 M + (e + -18)))
    by (rewrite fexp_eq; lia).
  destruct (binary_round_aux_spec false M (e + -18) loc_Exact HM Hpre)
    as (m2 & Hr & _ & ->).
  destruct (trunc_bounds M (e + -18) HM Hpre) as [Hb Hlo].
  set (f := fexp prec emax (Zdigits2 M + (e + -18))) in *.
  assert (Hf : -149 <= f <= -15) by (unfold f; rewrite fexp_eq; lia).
  assert (Hedge : f = -15 -> M / 2 ^ (f - (e + -18)) < 11796479).
  { intros Ef. rewrite Ef. replace (-15 - (e + -18)) with (3 - e) by lia.
    apply Z.div_lt_upper_bound; [apply pow2_pos; lia|]. unfold M.
    destruct Hcmp as [L|[-> L]].
    - assert (2 ^ 25 <= 2 ^ (3 - e)) by (apply pow2_le; lia). lia.
    - change (2 ^ (3 - -21)) with 16777216. lia. }
  pose proof (round_result_valid false m2 f ltac:(lia) ltac:(lia)
                ltac:(intros H; specialize (Hlo H); lia)) as Hval.
  unfold round_result in *. destruct m2 as [|q|q]; [reflexivity| |reflexivity].
  destruct (Z.ltb_spec (Z.pos q) (2 ^ 24)) as [Hlt|Hge].
  - destruct (Z.leb_spec f 104); [|lia]. cbn [nonneg_below].
    split; [reflexivity|]. split; [exact Hval|].
    apply flt_finite_pos.
    destruct (Z.eq_dec f (-15)) as [Ef|Nf]; [|lia].
    specialize (Hedge Ef). right. split; [exact Ef|]. lia.
  - destruct (Z.leb_spec (f + 1) 104); [|lia]. cbn [nonneg_below].
    split; [reflexivity|]. split; [exact Hval|].
    apply flt_finite_pos.
    destruct (Z.eq_dec f (-15)) as [Ef|Nf].
    + specialize (Hedge Ef). lia.
    + destruct (Z.eq_dec f (-16)) as [Ef|Nf']; [right | left]; lia.
Qed.

Lemma fle_finite_pos m1 e1 m2 e2 :
  fle (S754_finite false m1 e1) (S754_finite false m2 e2) = true
  <-> e1 < e2 \/ (e1 = e2 /\ Zpos m1 <= Zpos m2).
Proof.
  unfold fle, SFleb, SFcompare.
  destruct (Z.compare_spec e1 e2) as [E|L|G].
  - fold (Pos.compare m1 m2).
    destruct (Pos.compare_spec m1 m2) as [Hc|Hc|Hc]; split; intros H;
      try discriminate; try reflexivity; lia.
  - split; [intros _; left; exact L | reflexivity].
  - split; [discriminate | intros H; lia].
Qed.

(** An angle of [[0, PI2)], multiplied by a conversion factor of at most
    [15019745 * 2^-18], is a float of [[0, 360]]. *)
Lemma degrees_le k c :
  2 ^ 23 <= Z.pos k <= 15019745 ->
  nonneg_below PI2 c ->
  let d := fmul c (S754_finite false k (-18)) in
  valid_binary prec emax d = true /\ fle f0 d = true /\ fle d f360 = true.
Proof.
  intros Hk Hc d. unfold d. clear d. rewrite f360_eq.
  destruct c as [s|s| |s m e]; cbn [nonneg_below] in Hc; try contradiction.
  { subst s. repeat split; reflexivity. }
  pose proof (below_PI2_inv _ _ _ Hc) as (-> & Hm & He & Hcmp).
  destruct Hc as (_ & Hv & _).
  pose proof (valid_finite_inv _ _ _ Hv) as (Hdm & _ & Hcan).
  rewrite fexp_eq in Hcan.
  unfold fmul. cbn [SFmul xorb]. rewrite Pos2Z.inj_mul.
  set (M := Z.pos m * Z.pos k).
  pose proof (Zdigits2_mul (Z.pos m) (Z.pos k) ltac:(lia) ltac:(lia)) as Hd.
  assert (Hdk : Zdigits2 (Z.pos k) = 24).
  { pose proof (Zdigits2_le (Z.pos k) 24 ltac:(lia) ltac:(lia)
                  ltac:(change (2 ^ 24) with 16777216; lia)).
    pose proof (Zdigits2_ge (Z.pos k) 23 ltac:(lia) ltac:(lia)). lia. }
  rewrite Hdk in Hd. fold M in Hd.
  destruct (Zdigits2_bounds (Z.pos m) ltac:(lia)) as (Hd1 & _).
  assert (HM : 0 < M) by (unfold M; lia).
  assert (Hpre : e + -18 <= fexp prec emax (Zdigits2 M + (e + -18)))
    by (rewrite fexp_eq; lia).
  destruct (binary_round_aux_spec false M (e + -18) loc_Exact HM Hpre)
    as (m2 & Hr & _ & ->).
  destruct (trunc_bounds M (e + -18) HM Hpre) as [Hb Hlo].
  set (f := fexp prec emax (Zdigits2 M + (e + -18))) in *.
  assert (Hf : -149 <= f <= -15) by (unfold f; rewrite fexp_eq; lia).
  assert (Hedge : f = -15 -> M / 2 ^ (f - (e + -18)) < 11796480).
  { intros Ef. rewrite Ef. replace (-15 - (e + -18)) with (3 - e) by lia.
    apply Z.div_lt_upper_bound; [apply pow2_pos; lia|]. unfold M.
    destruct Hcmp as [L|[-> L]].
    - assert (2 ^ 25 <= 2 ^ (3 - e)) by (apply pow2_le; lia). nia.
    - change (2 ^ (3 - -21)) with 16777216. nia. }
  pose proof (round_result_valid false m2 f ltac:(lia) ltac:(lia)
                ltac:(intros H; specialize (Hlo H); lia)) as Hval.
  unfold round_result in *. destruct m2 as [|q|q]; [repeat split; reflexivity| |].
  2: { lia. }
  destruct (Z.ltb_spec (Z.pos q) (2 ^ 24)) as [Hlt|Hge].
  - destruct (Z.leb_spec f 104); [|lia].
    split; [exact Hval|]. split; [reflexivity|].
    apply fle_finite_pos.
    destruct (Z.eq_dec f (-15)) as [Ef|Nf]; [|lia].
    specialize (Hedge Ef). right. split; [exact Ef|]. lia.
  - destruct (Z.leb_spec (f + 1) 104); [|lia].
    split; [exact Hval|]. split; [reflexivity|].
    apply fle_finite_pos.
    destruct (Z.eq_dec f (-15)) as [Ef|Nf].
    + specialize (Hedge Ef). change (2 ^ 24) with 16777216 in Hge. lia.
    + destruct (Z.eq_dec f (-16)) as [Ef|Nf']; [right | left]; lia.
Qed.

(** X13: for every canard angle the program can hold, [ActuateCanard]
    computes a degree value that is a valid float with
    [0 <= degrees < 360] when [RAD2DEG] comes from the sketch's own [float]
    macro for [PI]; when it comes from a binary64 [PI] it is the next float
    up, the degree value is a valid float with [0 <= degrees <= 360], and
    [360] is reached: by the canard angle after a tick of 1 ms and one of
    14999 ms.  The constants that produce the canard angles, [DEG2RAD] and
    [PI2], are the same floats in both cases. *)
Theorem ActuateCanard_degrees atan2f fmt now ticks pin i :
  let c := canard (rocket (fst (run atan2f fmt now ticks))) i in
  (valid_binary prec emax (ActuateCanard pin c) = true
   /\ in_turn f360 (ActuateCanard pin c) = true)
  /\ (valid_binary prec emax (fmul c RAD2DEG_wide) = true
      /\ fle f0 (fmul c RAD2DEG_wide) = true
      /\ fle (fmul c RAD2DEG_wide) f360 = true)
  /\ (RAD2DEG = S754_finite false 15019744 (-18)
      /\ RAD2DEG_wide = S754_finite false 15019745 (-18)
      /\ DEG2RAD_wide = DEG2RAD /\ PI2_wide = PI2
      /\ canard_rotations
           (rocket (fst (run atan2f_axes format_f 0 near_full_turn_ticks)))
         = replicate 4 (S754_finite false 13176794 (-21))
      /\ fmul (S754_finite false 13176794 (-21)) RAD2DEG_wide = f360
      /\ in_turn f360 (fmul (S754_finite false 13176794 (-21)) RAD2DEG) = true).
Proof.
  intros c.
  destruct (run_canards_ok atan2f fmt now ticks) as [_ Hall].
  assert (Hc : nonneg_below PI2 c).
  { unfold c, canard.
    destruct (canard_rotations (rocket (fst (run atan2f fmt now ticks))) !! i)
      as [c'|] eqn:Ec; cbn [default].
    - exact (Forall_lookup_1 _ _ _ _ Hall Ec).
    - reflexivity. }
  split; [|split].
  - unfold ActuateCanard.
    apply (nonneg_below_in_turn f360 _ (degrees_below _ Hc)); reflexivity.
  - assert (Ew : RAD2DEG_wide = S754_finite false 15019745 (-18))
      by (vm_compute; reflexivity).
    rewrite Ew. apply degrees_le; [|exact Hc].
    change (2 ^ 23) with 8388608. lia.
  - vm_compute. repeat split; reflexivity.
Qed.

(** X14: the retry loop of [setup()] never gives up and never skips a
    report: it prints the failure message once for each failed attempt that
    precedes the first successful one, ends at that attempt (later ones are
    not made), and is still initializing when every attempt so far has
    failed. *)
Theorem setup_retry_reports attempts :
  exists k,
    fst (setup_retry attempts) = replicate k (init_failed_msg ++ CRLF)
    /\ take k attempts = replicate k false
    /\ (if snd (setup_retry attempts)
        then attempts !! k = Some true
        else k = length attempts).
Proof.
  induction attempts as [|ok rest (k & Hout & Htake & Hend)].
  - exists 0%nat. repeat split.
  - destruct ok.
    + exists 0%nat. repeat split.
    + exists (S k). cbn [setup_retry].
      destruct (setup_retry rest) as [out init]. cbn [fst snd] in *.
      split; [|split].
      * rewrite Hout. reflexivity.
      * cbn [take replicate]. rewrite Htake. reflexivity.
      * destruct init; [exact Hend | cbn [length]; lia].
Qed.
